(** * D3pixelbot: chunked canvas, virtual-chunk viewports, recording codec

    A shallow embedding of the canvas engine ([canvas] and its broadcaster),
    the recording writer ([canvasDiskWriter]) and the disk replayer
    ([canvasDiskReader]).

    Conventions of the embedding:
    - Go's [int] is the 64-bit two's complement integer of the amd64
      target; it is a [Z] and every arithmetic result is wrapped by
      [int_wrap].  Fixed-width conversions ([uint8], [uint16], [uint32],
      [int32], [int64]) are written out with [Z.modulo].
    - [time.Time] is its [UnixNano] value, a [Z].
    - A byte is a [Z] in [0, 256); a byte stream is a [list Z].
    - A Go map is a [gmap]; a channel is the list of the values sent on it,
      oldest first.
    - [fmt.Errorf] values are the constructors of [error]. *)

From Stdlib Require Import ZArith List Lia Bool Ascii String.
From stdpp Require Import base option list gmap fin_maps fin_sets strings.

Local Open Scope Z_scope.

Set Warnings "-clear-no-such-hyp".

(** ** Machine integers *)

Module GoInt.

Definition uwrap (bits : Z) (v : Z) : Z := v mod (2 ^ bits).

Definition swrap (bits : Z) (v : Z) : Z :=
  (v + 2 ^ (bits - 1)) mod (2 ^ bits) - 2 ^ (bits - 1).

Definition uint8 (v : Z) : Z := uwrap 8 v.
Definition uint16 (v : Z) : Z := uwrap 16 v.
Definition uint32 (v : Z) : Z := uwrap 32 v.
Definition int32 (v : Z) : Z := swrap 32 v.
Definition int64 (v : Z) : Z := swrap 64 v.

(** Go's [int] on the 64-bit target. *)
Definition int_wrap (v : Z) : Z := swrap 64 v.
Definition int_add (a b : Z) : Z := int_wrap (a + b).
Definition int_sub (a b : Z) : Z := int_wrap (a - b).
Definition int_mul (a b : Z) : Z := int_wrap (a * b).

Definition maxInt : Z := 2 ^ 63 - 1.
Definition minInt : Z := - 2 ^ 63.
Definition MinInt32 : Z := - 2 ^ 31.
Definition MaxInt32 : Z := 2 ^ 31 - 1.

Definition is_int (v : Z) : Prop := minInt <= v <= maxInt.

End GoInt.
Import GoInt.

(** ** Errors and results *)

Inductive error : Type :=
  | ErrClosed            (* "Canvas is closed" *)
  | ErrNotFound          (* "Chunk at %v does not exist" *)
  | ErrOutOfBounds       (* chunk-level position check *)
  | ErrInvalid           (* valid-only snapshot of an invalid chunk *)
  | ErrNoDownload        (* setImage on a chunk that is not downloading *)
  | ErrEOF               (* io.EOF: nothing could be read *)
  | ErrUnexpectedEOF     (* io.ErrUnexpectedEOF: a value was cut short *)
  | ErrWrongFormat       (* "Wrong file format" *)
  | ErrVersionNewer      (* "Version is newer" *)
  | ErrImageSize         (* rgbArrayToImage: array matches neither RGB nor RGBA *)
  | ErrPaletteIndex      (* "Index outside of palette" *)
  | ErrNoRecordings      (* "Can't find any recordings in %v" *)
  | ErrOpen              (* "Can't open recording %v" / gzip initialisation *)
  | PanicIndexOutOfRange (* Go run-time panic on a slice index *).

Inductive result (A : Type) : Type :=
  | Ok (a : A)
  | Err (e : error).
Arguments Ok {A} a.
Arguments Err {A} e.

Definition is_ok {A} (r : result A) : bool :=
  match r with Ok _ => true | Err _ => false end.

(** ** Geometry: [image.Point], [image.Rectangle], [pixelSize] *)

Record Point : Type := mkPoint { X : Z; Y : Z }.
Record Rectangle : Type := mkRectangle { Min : Point; Max : Point }.

(** [pixelSize], [chunkCoordinate] and [chunkRectangle] are defined on top
    of [image.Point] and [image.Rectangle]. *)
Abbreviation pixelSize := Point (only parsing).
Abbreviation chunkCoordinate := Point (only parsing).
Abbreviation chunkRectangle := Rectangle (only parsing).

#[global] Instance Point_eq_dec : EqDecision Point.
Proof. solve_decision. Defined.

#[global] Instance Rectangle_eq_dec : EqDecision Rectangle.
Proof. solve_decision. Defined.

#[global] Instance Point_countable : Countable Point.
Proof.
  refine (inj_countable' (fun p => (X p, Y p)) (fun t => mkPoint t.1 t.2) _).
  by intros [].
Defined.

#[global] Instance Rectangle_countable : Countable Rectangle.
Proof.
  refine (inj_countable' (fun r => (Min r, Max r))
                         (fun t => mkRectangle t.1 t.2) _).
  by intros [].
Defined.

(** [image.Point.Add] *)
Definition Point_Add (p q : Point) : Point :=
  mkPoint (int_add (X p) (X q)) (int_add (Y p) (Y q)).

(** [image.Rect]: the rectangle with the corners put in canonical order. *)
Definition image_Rect (x0 y0 x1 y1 : Z) : Rectangle :=
  let '(x0, x1) := if x1 <? x0 then (x1, x0) else (x0, x1) in
  let '(y0, y1) := if y1 <? y0 then (y1, y0) else (y0, y1) in
  mkRectangle (mkPoint x0 y0) (mkPoint x1 y1).

(** [image.Rectangle.Canon] *)
Definition Rect_Canon (r : Rectangle) : Rectangle :=
  image_Rect (X (Min r)) (Y (Min r)) (X (Max r)) (Y (Max r)).

Definition Rect_Dx (r : Rectangle) : Z := int_sub (X (Max r)) (X (Min r)).
Definition Rect_Dy (r : Rectangle) : Z := int_sub (Y (Max r)) (Y (Min r)).

(** [image.Rectangle.Empty] *)
Definition Rect_Empty (r : Rectangle) : bool :=
  (X (Max r) <=? X (Min r)) || (Y (Max r) <=? Y (Min r)).

(** [image.Point.In] *)
Definition Point_In (p : Point) (r : Rectangle) : bool :=
  (X (Min r) <=? X p) && (X p <? X (Max r)) &&
  (Y (Min r) <=? Y p) && (Y p <? Y (Max r)).

(** [color.RGBA] *)
Record RGBA : Type := mkRGBA { R : Z; G : Z; B : Z; A : Z }.

#[global] Instance RGBA_eq_dec : EqDecision RGBA.
Proof. solve_decision. Defined.

(** [color.RGBA.RGBA()]: the 16-bit channels, each byte doubled. *)
Definition RGBA_channels (c : RGBA) : Z * Z * Z * Z :=
  (R c * 257, G c * 257, B c * 257, A c * 257).

(** An image at the boundary of the canvas: its bounds and its pixel bytes,
    four per pixel, row by row ([image.RGBA.Pix]). *)
Record Image : Type := mkImage { Bounds : Rectangle; Pix : list Z }.

(** ** [encoding/binary], little endian *)

Module Binary.

(** The [n] low bytes of [v], least significant first. *)
Fixpoint le_put (n : nat) (v : Z) : list Z :=
  match n with
  | O => []
  | S n' => v mod 256 :: le_put n' (v / 256)
  end.

(** The unsigned value of a little-endian byte string. *)
Fixpoint le_get (bs : list Z) : Z :=
  match bs with
  | [] => 0
  | b :: bs' => b + 256 * le_get bs'
  end.

Definition put_u8 (v : Z) : list Z := le_put 1 v.
Definition put_u16 (v : Z) : list Z := le_put 2 v.
Definition put_u32 (v : Z) : list Z := le_put 4 v.
Definition put_i32 (v : Z) : list Z := le_put 4 v.
Definition put_i64 (v : Z) : list Z := le_put 8 v.

(** [io.ReadFull] of [n] bytes: [io.EOF] when the stream is exhausted,
    [io.ErrUnexpectedEOF] when it ends inside the value. *)
Definition read_bytes (n : Z) (s : list Z) : result (list Z * list Z) :=
  if n =? 0 then Ok ([], s)
  else match s with
       | [] => Err ErrEOF
       | _ => if Z.of_nat (length s) <? n then Err ErrUnexpectedEOF
              else Ok (take (Z.to_nat n) s, drop (Z.to_nat n) s)
       end.

Definition read_unsigned (n : Z) (s : list Z) : result (Z * list Z) :=
  match read_bytes n s with
  | Ok (bs, s') => Ok (le_get bs, s')
  | Err e => Err e
  end.

Definition read_signed (n : Z) (s : list Z) : result (Z * list Z) :=
  match read_bytes n s with
  | Ok (bs, s') => Ok (swrap (8 * n) (le_get bs), s')
  | Err e => Err e
  end.

End Binary.
Import Binary.

(** ** The recording writer ([canvasDiskWriter]) *)

(** An [image.Paletted] as the writer uses it: its bounds and the pixel
    array of the [image.RGBA] that [draw.Draw] renders it into
    ([imgRGBA.Pix], standard library). *)
Record Paletted : Type := mkPaletted { P_Bounds : Rectangle; P_RGBA : list Z }.

(** The writer holds the canvas it records (its chunk size and palette are
    what the writer reads of it) and the compressed stream, here the bytes
    written into it so far. *)
Record canvasDiskWriter : Type := mkWriter {
  Canvas_ChunkSize : pixelSize;
  Canvas_Palette : list RGBA;
  ZipWriter : list Z
}.

Definition MagicNumber : Z := 1128616528.

Definition cdw_write (cdw : canvasDiskWriter) (bs : list Z) : canvasDiskWriter :=
  mkWriter (Canvas_ChunkSize cdw) (Canvas_Palette cdw) (ZipWriter cdw ++ bs).

(** The header struct of [newCanvasDiskWriter], field by field. *)
Definition writerHeader (chunkSize : pixelSize) (palette : list RGBA) : list Z :=
  put_u32 MagicNumber ++
  put_u16 1 ++
  put_u32 (uint32 (X chunkSize)) ++
  put_u32 (uint32 (Y chunkSize)) ++
  put_u16 (uint16 (Z.of_nat (length palette))).

Definition writerPaletteEntry (c : RGBA) : list Z :=
  let '(r, g, b, _) := RGBA_channels c in
  put_u8 (uint8 r) ++ put_u8 (uint8 g) ++ put_u8 (uint8 b).

Definition newCanvasDiskWriter (chunkSize : pixelSize) (palette : list RGBA)
  : canvasDiskWriter :=
  mkWriter chunkSize palette
    (writerHeader chunkSize palette ++ flat_map writerPaletteEntry palette).

Definition cdw_handleSetPixel (cdw : canvasDiskWriter) (pos : Point) (colorIndex : Z)
  : canvasDiskWriter * option error :=
  if Z.of_nat (length (Canvas_Palette cdw)) <? colorIndex
  then (cdw, Some ErrPaletteIndex)
  else match Canvas_Palette cdw !! Z.to_nat colorIndex with
       | None => (cdw, Some PanicIndexOutOfRange)
       | Some c =>
         let '(r, g, b, _) := RGBA_channels c in
         (cdw_write cdw
            (put_u8 10 ++
             put_i32 (int32 (X pos)) ++ put_i32 (int32 (Y pos)) ++
             put_u8 (uint8 r) ++ put_u8 (uint8 g) ++ put_u8 (uint8 b)),
          None)
       end.

Definition cdw_handleInvalidateRect (cdw : canvasDiskWriter) (rect : Rectangle)
  : canvasDiskWriter * option error :=
  (cdw_write cdw
     (put_u8 20 ++
      put_i32 (int32 (X (Min rect))) ++ put_i32 (int32 (Y (Min rect))) ++
      put_i32 (int32 (X (Max rect))) ++ put_i32 (int32 (Y (Max rect)))),
   None).

Definition cdw_handleInvalidateAll (cdw : canvasDiskWriter)
  : canvasDiskWriter * option error :=
  (cdw_write cdw (put_u8 21), None).

Definition cdw_handleSetImage (cdw : canvasDiskWriter) (img : Paletted)
  : canvasDiskWriter * option error :=
  let bounds := P_Bounds img in
  let arrayRGBA := P_RGBA img in
  (cdw_write cdw
     (put_u8 30 ++
      put_i32 (int32 (X (Min bounds))) ++ put_i32 (int32 (Y (Min bounds))) ++
      put_u16 (uint16 (Rect_Dx bounds)) ++ put_u16 (uint16 (Rect_Dy bounds)) ++
      put_u32 (uint32 (Z.of_nat (length arrayRGBA))) ++
      arrayRGBA),
   None).

(** The events a recorder hands to the writer, and the writer run on a
    sequence of them (it stops at the first handler that fails). *)
Inductive writerEvent : Type :=
  | WSetPixel (pos : Point) (colorIndex : Z)
  | WInvalidateRect (rect : Rectangle)
  | WInvalidateAll
  | WSetImage (img : Paletted).

Definition cdw_handle (cdw : canvasDiskWriter) (e : writerEvent)
  : canvasDiskWriter * option error :=
  match e with
  | WSetPixel pos i => cdw_handleSetPixel cdw pos i
  | WInvalidateRect r => cdw_handleInvalidateRect cdw r
  | WInvalidateAll => cdw_handleInvalidateAll cdw
  | WSetImage img => cdw_handleSetImage cdw img
  end.

Fixpoint cdw_record (cdw : canvasDiskWriter) (es : list writerEvent)
  : canvasDiskWriter * option error :=
  match es with
  | [] => (cdw, None)
  | e :: es' =>
    match cdw_handle cdw e with
    | (cdw', None) => cdw_record cdw' es'
    | (cdw', Some err) => (cdw', Some err)
    end
  end.

(** ** The recording reader ([canvasDiskReader]) *)

(** The canvas mutators the replayer invokes, as the trace of its calls. *)
Inductive canvasCall : Type :=
  | CallSetPixel (pos : Point) (col : RGBA)
  | CallInvalidateRect (rect : Rectangle)
  | CallInvalidateAll
  | CallRevalidateRect (rect : Rectangle)
  | CallSignalDownload (rect : Rectangle)
  | CallSetImage (img : Image) (createIfNonexistent ignoreNonexistent : bool).

#[global] Instance Image_eq_dec : EqDecision Image.
Proof. solve_decision. Defined.

#[global] Instance canvasCall_eq_dec : EqDecision canvasCall.
Proof. solve_decision. Defined.

(** [parseHeader]: one [binary.Read] of the 24-byte header struct, then the
    magic-number and version checks.  Returns the recording's start time,
    its chunk size and the rest of the stream. *)
Definition parseHeader (s : list Z) : result (Z * pixelSize * list Z) :=
  match read_bytes 24 s with
  | Err e => Err e
  | Ok (h, rest) =>
    let magic := le_get (take 4 h) in
    let version := le_get (take 2 (drop 4 h)) in
    let time := int64 (le_get (take 8 (drop 6 h))) in
    let chunkWidth := le_get (take 4 (drop 14 h)) in
    let chunkHeight := le_get (take 4 (drop 18 h)) in
    if negb (magic =? MagicNumber) then Err ErrWrongFormat
    else if 1 <? version then Err ErrVersionNewer
    else Ok (time, mkPoint chunkWidth chunkHeight, rest)
  end.

Fixpoint rgbToRgba (data : list Z) : list Z :=
  match data with
  | r :: g :: b :: rest => r :: g :: b :: 255 :: rgbToRgba rest
  | _ => []
  end.

(** Modelled from the spec: [rgbArrayToImage] is not among the sources.  The
    array is RGBA when its size is [W*H*4] and RGB when it is [W*H*3]; any
    other size is an error. *)
Definition rgbArrayToImage (data : list Z) (rect : Rectangle) : result Image :=
  let n := Rect_Dx rect * Rect_Dy rect in
  if Z.of_nat (length data) =? n * 4 then Ok (mkImage rect data)
  else if Z.of_nat (length data) =? n * 3 then Ok (mkImage rect (rgbToRgba data))
  else Err ErrImageSize.

Definition read_rect (s : list Z) : result (Rectangle * list Z) :=
  match read_bytes 16 s with
  | Err e => Err e
  | Ok (d, rest) =>
    let minX := int32 (le_get (take 4 d)) in
    let minY := int32 (le_get (take 4 (drop 4 d))) in
    let maxX := int32 (le_get (take 4 (drop 8 d))) in
    let maxY := int32 (le_get (take 4 (drop 12 d))) in
    Ok (image_Rect minX minY maxX maxY, rest)
  end.

(** One turn of the replayer's read loop: the frame's data type and time,
    then the payload chosen by the [switch].  Returns the frame's time, the
    canvas calls made for it and the rest of the stream. *)
Definition readEvent (s : list Z) : result (Z * list canvasCall * list Z) :=
  match read_unsigned 1 s with
  | Err e => Err e
  | Ok (dataType, s1) =>
    match read_signed 8 s1 with
    | Err e => Err e
    | Ok (binTime, s2) =>
      if dataType =? 10 then
        match read_bytes 11 s2 with
        | Err e => Err e
        | Ok (d, rest) =>
          let x := int32 (le_get (take 4 d)) in
          let y := int32 (le_get (take 4 (drop 4 d))) in
          let r := le_get (take 1 (drop 8 d)) in
          let g := le_get (take 1 (drop 9 d)) in
          let b := le_get (take 1 (drop 10 d)) in
          Ok (binTime, [CallSetPixel (mkPoint x y) (mkRGBA r g b 255)], rest)
        end
      else if dataType =? 20 then
        match read_rect s2 with
        | Err e => Err e
        | Ok (rect, rest) => Ok (binTime, [CallInvalidateRect rect], rest)
        end
      else if dataType =? 21 then
        Ok (binTime, [CallInvalidateAll], s2)
      else if dataType =? 22 then
        match read_rect s2 with
        | Err e => Err e
        | Ok (rect, rest) => Ok (binTime, [CallRevalidateRect rect], rest)
        end
      else if dataType =? 30 then
        match read_bytes 16 s2 with
        | Err e => Err e
        | Ok (d, s3) =>
          let x := int32 (le_get (take 4 d)) in
          let y := int32 (le_get (take 4 (drop 4 d))) in
          let width := le_get (take 2 (drop 8 d)) in
          let height := le_get (take 2 (drop 10 d)) in
          let size := le_get (take 4 (drop 12 d)) in
          match read_bytes size s3 with
          | Err e => Err e
          | Ok (imageData, rest) =>
            let rect := image_Rect x y (int_add x width) (int_add y height) in
            match rgbArrayToImage imageData rect with
            | Err e => Err e
            | Ok img =>
              Ok (binTime, [CallSignalDownload rect; CallSetImage img false true], rest)
            end
          end
        end
      else
        (* the switch has no default: no call, and the loop goes on *)
        Ok (binTime, [], s2)
    end
  end.

(** ** Chunks *)

(** Pixel access into an [image.RGBA] buffer: [PixOffset] and [RGBAAt]. *)
Definition Image_PixOffset (img : Image) (p : Point) : Z :=
  ((Y p - Y (Min (Bounds img))) * Rect_Dx (Bounds img) + (X p - X (Min (Bounds img)))) * 4.

Definition Image_At (img : Image) (p : Point) : RGBA :=
  if Point_In p (Bounds img) then
    let i := Z.to_nat (Image_PixOffset img p) in
    mkRGBA (default 0 (Pix img !! i)) (default 0 (Pix img !! (i + 1)%nat))
           (default 0 (Pix img !! (i + 2)%nat)) (default 0 (Pix img !! (i + 3)%nat))
  else mkRGBA 0 0 0 0.

Definition Image_Set (img : Image) (p : Point) (c : RGBA) : Image :=
  if Point_In p (Bounds img) then
    let i := Z.to_nat (Image_PixOffset img p) in
    mkImage (Bounds img)
      (<[(i + 3)%nat := A c]> (<[(i + 2)%nat := B c]> (<[(i + 1)%nat := G c]> (<[i := R c]> (Pix img)))))
  else img.

(** The integers [lo, lo+1, ..., hi-1] of a Go counting loop. *)
Definition zrange (lo hi : Z) : list Z :=
  map (fun i => lo + Z.of_nat i) (seq 0 (Z.to_nat (hi - lo))).

(** The positions of a rectangle, row by row. *)
Definition Rect_points (r : Rectangle) : list Point :=
  flat_map (fun y => map (fun x => mkPoint x y) (zrange (X (Min r)) (X (Max r))))
           (zrange (Y (Min r)) (Y (Max r))).

(** [image.NewRGBA]: a transparent image of the given bounds. *)
Definition image_NewRGBA (r : Rectangle) : Image :=
  mkImage r (replicate (Z.to_nat (4 * Rect_Dx r * Rect_Dy r)) 0).

(** [draw.Draw(dst, r, src, r.Min, draw.Over)] (standard library), for the
    opaque and the fully transparent source pixels the canvas works with:
    inside [r] and the bounds of both images an opaque source pixel replaces
    the destination pixel; every other destination pixel is kept. *)
Definition draw_Over (dst : Image) (r : Rectangle) (src : Image) : Image :=
  fold_left
    (fun d p =>
       if Point_In p r && Point_In p (Bounds src) && (A (Image_At src p) =? 255)
       then Image_Set d p (Image_At src p) else d)
    (Rect_points (Bounds dst)) dst.

(** Modelled from the spec: [chunk.go] is not among the sources.  A chunk
    has its pixel rectangle, an RGBA buffer of that size, the [valid] and
    [downloading] flags and the queue of pixel events received while
    downloading.  The timestamps that only the download scheduler reads are
    left out. *)
Record chunk : Type := mkChunk {
  C_Rect : Rectangle;
  C_Image : Image;
  Valid : bool;
  Downloading : bool;
  ReplayQueue : list (Point * RGBA)
}.

(** Modelled from the spec: a created chunk is invalid, not downloading and
    transparent. *)
Definition newChunk (rect : Rectangle) : chunk :=
  mkChunk rect (image_NewRGBA rect) false false [].

(** Modelled from the spec: [chunk.setPixel] writes one pixel, fails when
    the position is outside the chunk's rectangle, and queues the pixel
    while a download is in progress. *)
Definition chunk_setPixel (ch : chunk) (pos : Point) (col : RGBA) : chunk * option error :=
  if Point_In pos (C_Rect ch) then
    (mkChunk (C_Rect ch) (Image_Set (C_Image ch) pos col) (Valid ch) (Downloading ch)
             (if Downloading ch then ReplayQueue ch ++ [(pos, col)] else ReplayQueue ch),
     None)
  else (ch, Some ErrOutOfBounds).

(** Modelled from the spec: [chunk.setImage] copies the part of the source
    over the chunk's rectangle, replays the queued pixels over it, clears
    the queue and leaves the chunk valid and not downloading.  A chunk that
    is not downloading is refused.  The result is the new image, or nothing
    when the chunk was valid already and its pixels did not change. *)
Definition chunk_setImage (ch : chunk) (src : Image) : chunk * result (option Image) :=
  if negb (Downloading ch) then (ch, Err ErrNoDownload)
  else
    let copied := draw_Over (image_NewRGBA (C_Rect ch)) (C_Rect ch) src in
    let replayed := fold_left (fun im pc => Image_Set im pc.1 pc.2) (ReplayQueue ch) copied in
    (mkChunk (C_Rect ch) replayed true false [],
     Ok (if Valid ch && bool_decide (replayed = C_Image ch) then None else Some replayed)).

(** Modelled from the spec: [chunk.invalidateImage] keeps the buffer, drops
    the queue and leaves the chunk invalid and not downloading. *)
Definition chunk_invalidateImage (ch : chunk) : chunk :=
  mkChunk (C_Rect ch) (C_Image ch) false false [].

(** Modelled from the spec: [chunk.revalidate] marks the chunk valid. *)
Definition chunk_revalidate (ch : chunk) : chunk :=
  mkChunk (C_Rect ch) (C_Image ch) true (Downloading ch) (ReplayQueue ch).

(** Modelled from the spec: [chunk.signalDownload] reports whether the chunk
    entered the downloading state by this call. *)
Definition chunk_signalDownload (ch : chunk) : chunk * bool :=
  if Downloading ch then (ch, false)
  else (mkChunk (C_Rect ch) (C_Image ch) (Valid ch) true (ReplayQueue ch), true).

(** Modelled from the spec: [chunk.getImageCopy] returns a snapshot with the
    chunk's flags and fails on an invalid chunk when only a valid image is
    wanted. *)
Definition chunk_getImageCopy (ch : chunk) (onlyIfValid : bool)
  : result (Image * bool * bool) :=
  if onlyIfValid && negb (Valid ch) then Err ErrInvalid
  else Ok (C_Image ch, Valid ch, Downloading ch).

(** ** The chunk grid ([pixelSize] methods) *)

(** Modelled from the spec: [pixelSize.getChunkCoord] is not among the
    sources; the chunk coordinate of a position is
    [(floor ((x + Ox) / W), floor ((y + Oy) / H))]. *)
Definition getChunkCoord (size : pixelSize) (pos : Point) (origin : Point) : chunkCoordinate :=
  mkPoint ((X pos + X origin) / X size) ((Y pos + Y origin) / Y size).

(** Modelled from the spec: [pixelSize.getOuterChunkRect] is not among the
    sources; it is the rectangle of the chunk coordinates whose pixel
    rectangles intersect the given one. *)
Definition getOuterChunkRect (size : pixelSize) (rect : Rectangle) (origin : Point)
  : chunkRectangle :=
  mkRectangle
    (mkPoint ((X (Min rect) + X origin) / X size) ((Y (Min rect) + Y origin) / Y size))
    (mkPoint ((X (Max rect) + X origin - 1) / X size + 1)
             ((Y (Max rect) + Y origin - 1) / Y size + 1)).

(** Modelled from the spec: [pixelSize.getInnerChunkRect] is not among the
    sources; it is the rectangle of the chunk coordinates whose pixel
    rectangles lie inside the given one. *)
Definition getInnerChunkRect (size : pixelSize) (rect : Rectangle) (origin : Point)
  : chunkRectangle :=
  mkRectangle
    (mkPoint ((X (Min rect) + X origin + X size - 1) / X size)
             ((Y (Min rect) + Y origin + Y size - 1) / Y size))
    (mkPoint ((X (Max rect) + X origin) / X size) ((Y (Max rect) + Y origin) / Y size)).

(** The chunk coordinates of a chunk rectangle in the order of the nested
    loops [for iy ... { for ix ... } ]. *)
Definition chunkCoords (r : chunkRectangle) : list chunkCoordinate :=
  flat_map (fun iy => map (fun ix => mkPoint ix iy) (zrange (X (Min r)) (X (Max r))))
           (zrange (Y (Min r)) (Y (Max r))).

(** ** The canvas *)

(** A listener is known to the canvas by its identity (the interface value
    that keys the broadcaster's map). *)
Abbreviation canvasListener := nat (only parsing).

Inductive canvasEvent : Type :=
  | canvasEventInvalidateAll
  | canvasEventInvalidateRect (rect : Rectangle)
  | canvasEventSetImage (img : Image)
  | canvasEventSetPixel (pos : Point) (col : RGBA)
  | canvasEventSignalDownload (rect : Rectangle)
  | canvasEventRevalidate (rect : Rectangle)
  | canvasEventListenerSubscribe (l : canvasListener) (useVirtualChunks : bool)
  | canvasEventListenerUnsubscribe (l : canvasListener)
  | canvasEventListenerRects (l : canvasListener) (rects : list Rectangle)
  | canvasEventSetTime (t : Z).

(** The canvas.  [Chunks] holds the chunks themselves: a [*chunk] of the
    source is the coordinate the chunk is stored under, and a mutation
    through the pointer is an update of the map at that coordinate.
    [EventChan] is the sequence of events sent to the broadcaster. *)
Record canvas : Type := mkCanvas {
  Closed : bool;
  ChunkSize : pixelSize;
  Origin : Point;
  Rect : Rectangle;
  Chunks : gmap Point chunk;
  Time : Z;
  EventChan : list canvasEvent;
  EventChanClosed : bool
}.

Definition with_Chunks (can : canvas) (m : gmap Point chunk) : canvas :=
  mkCanvas (Closed can) (ChunkSize can) (Origin can) (Rect can) m (Time can)
           (EventChan can) (EventChanClosed can).

Definition with_Time (can : canvas) (t : Z) : canvas :=
  mkCanvas (Closed can) (ChunkSize can) (Origin can) (Rect can) (Chunks can) t
           (EventChan can) (EventChanClosed can).

(** [can.EventChan <- e] *)
Definition send (can : canvas) (e : canvasEvent) : canvas :=
  mkCanvas (Closed can) (ChunkSize can) (Origin can) (Rect can) (Chunks can) (Time can)
           (EventChan can ++ [e]) (EventChanClosed can).

Definition newCanvas (chunkSize : pixelSize) (origin : Point) (canvasRect : Rectangle)
  : canvas :=
  mkCanvas false chunkSize origin canvasRect ∅ 0 [] false.

(** The rectangle [getChunk] gives to a chunk it creates. *)
Definition getChunk_rect (can : canvas) (coord : chunkCoordinate) : Rectangle :=
  let min := mkPoint (int_sub (int_mul (X coord) (X (ChunkSize can))) (X (Origin can)))
                     (int_sub (int_mul (Y coord) (Y (ChunkSize can))) (X (Origin can))) in
  let max := Point_Add min (mkPoint (X (ChunkSize can)) (Y (ChunkSize can))) in
  mkRectangle min max.

Definition getChunk (can : canvas) (coord : chunkCoordinate) (createIfNonexistent : bool)
  : canvas * result chunkCoordinate :=
  match Chunks can !! coord with
  | Some _ => (can, Ok coord)
  | None =>
    if createIfNonexistent then
      let chunk := newChunk (getChunk_rect can coord) in
      (with_Chunks can (<[coord := chunk]> (Chunks can)), Ok coord)
    else (can, Err ErrNotFound)
  end.

Fixpoint getChunks_loop (can : canvas) (coords : list chunkCoordinate)
    (createIfNonexistent ignoreNonexistent : bool) (chunks : list chunkCoordinate)
  : canvas * result (list chunkCoordinate) :=
  match coords with
  | [] => (can, Ok chunks)
  | coord :: rest =>
    match getChunk can coord createIfNonexistent with
    | (can', Err e) =>
      if negb ignoreNonexistent then (can', Err e)
      else getChunks_loop can' rest createIfNonexistent ignoreNonexistent chunks
    | (can', Ok chunk) =>
      getChunks_loop can' rest createIfNonexistent ignoreNonexistent (chunks ++ [chunk])
    end
  end.

Definition getChunks (can : canvas) (rect : chunkRectangle)
    (createIfNonexistent ignoreNonexistent : bool)
  : canvas * result (list chunkCoordinate) :=
  getChunks_loop can (chunkCoords (Rect_Canon rect)) createIfNonexistent ignoreNonexistent [].

(** [getAllChunks]: the chunks of the map, in the map's iteration order. *)
Definition getAllChunks (can : canvas) : list chunkCoordinate :=
  (map_to_list (Chunks can)).*1.

(** A chunk method that only updates the chunk, applied through pointers. *)
Definition updateChunks (f : chunk -> chunk) (can : canvas) (chunks : list chunkCoordinate)
  : canvas :=
  fold_left (fun c p => with_Chunks c (alter f p (Chunks c))) chunks can.

Definition subscribeListener (can : canvas) (l : canvasListener) (useVirtualChunks : bool)
  : canvas * option error :=
  if Closed can then (can, Some ErrClosed)
  else (send can (canvasEventListenerSubscribe l useVirtualChunks), None).

Definition unsubscribeListener (can : canvas) (l : canvasListener) : canvas * option error :=
  if Closed can then (can, Some ErrClosed)
  else (send can (canvasEventListenerUnsubscribe l), None).

Definition registerRects (can : canvas) (l : canvasListener) (rects : list Rectangle)
  : canvas * option error :=
  if Closed can then (can, Some ErrClosed)
  else (send can (canvasEventListenerRects l rects), None).

(** [setPixel]: the deferred send runs when the function returns, on every
    path after the closed check. *)
Definition setPixel (can : canvas) (pos : Point) (col : RGBA) : canvas * option error :=
  if Closed can then (can, Some ErrClosed)
  else
    let deferred (r : canvas * option error) :=
      (send r.1 (canvasEventSetPixel pos col), r.2) in
    let chunkCoord := getChunkCoord (ChunkSize can) pos (Origin can) in
    match getChunk can chunkCoord false with
    | (can1, Err e) => deferred (can1, Some e)
    | (can1, Ok p) =>
      match Chunks can1 !! p with
      | None => deferred (can1, Some ErrNotFound)
      | Some ch =>
        let '(ch', err) := chunk_setPixel ch pos col in
        deferred (with_Chunks can1 (<[p := ch']> (Chunks can1)), err)
      end
    end.

(** Modelled from the spec: [copyImage] is not among the sources; it is a
    deep copy, and a copy of a value is the value. *)
Definition copyImage (img : Image) : result Image := Ok img.

Fixpoint setImage_loop (can : canvas) (chunks : list chunkCoordinate) (imgCopy : Image)
  : canvas :=
  match chunks with
  | [] => can
  | p :: rest =>
    match Chunks can !! p with
    | None => setImage_loop can rest imgCopy
    | Some ch =>
      match chunk_setImage ch imgCopy with
      | (_, Err _) => setImage_loop can rest imgCopy
      | (ch', Ok resultImg) =>
        let can1 := with_Chunks can (<[p := ch']> (Chunks can)) in
        let can2 :=
          match resultImg with
          | Some img => send can1 (canvasEventSetImage img)
          | None => send can1 (canvasEventRevalidate (C_Rect ch'))
          end in
        setImage_loop can2 rest imgCopy
      end
    end
  end.

Definition setImage (can : canvas) (img : Image) (createIfNonexistent ignoreNonexistent : bool)
  : canvas * option error :=
  if Closed can then (can, Some ErrClosed)
  else
    let chunkRect := getInnerChunkRect (ChunkSize can) (Bounds img) (Origin can) in
    match getChunks can chunkRect createIfNonexistent ignoreNonexistent with
    | (can1, Err e) => (can1, Some e)
    | (can1, Ok chunks) =>
      match copyImage img with
      | Err e => (can1, Some e)
      | Ok imgCopy => (setImage_loop can1 chunks imgCopy, None)
      end
    end.

Fixpoint getImageCopy_loop (can : canvas) (chunks : list chunkCoordinate) (rect : Rectangle)
    (onlyIfValid : bool) (img : Image) : result Image :=
  match chunks with
  | [] => Ok img
  | p :: rest =>
    match Chunks can !! p with
    | None => getImageCopy_loop can rest rect onlyIfValid img
    | Some ch =>
      match chunk_getImageCopy ch onlyIfValid with
      | Ok (imgCopy, _, _) =>
        getImageCopy_loop can rest rect onlyIfValid (draw_Over img rect imgCopy)
      | Err e =>
        if onlyIfValid then Err e
        else getImageCopy_loop can rest rect onlyIfValid img
      end
    end
  end.

Definition getImageCopy (can : canvas) (rect : Rectangle) (onlyIfValid ignoreNonexistent : bool)
  : result Image :=
  let chunkRect := getOuterChunkRect (ChunkSize can) rect (Origin can) in
  match getChunks can chunkRect false ignoreNonexistent with
  | (_, Err e) => Err e
  | (_, Ok chunks) => getImageCopy_loop can chunks rect onlyIfValid (image_NewRGBA rect)
  end.

Definition invalidateRect (can : canvas) (rect : Rectangle) : canvas * option error :=
  if Closed can then (can, Some ErrClosed)
  else
    let deferred (r : canvas * option error) :=
      (send r.1 (canvasEventInvalidateRect rect), r.2) in
    let chunkRect := getOuterChunkRect (ChunkSize can) rect (Origin can) in
    match getChunks can chunkRect false true with
    | (can1, Err e) => deferred (can1, Some e)
    | (can1, Ok chunks) => deferred (updateChunks chunk_invalidateImage can1 chunks, None)
    end.

Definition revalidateRect (can : canvas) (rect : Rectangle) : canvas * option error :=
  if Closed can then (can, Some ErrClosed)
  else
    let deferred (r : canvas * option error) :=
      (send r.1 (canvasEventRevalidate rect), r.2) in
    let chunkRect := getOuterChunkRect (ChunkSize can) rect (Origin can) in
    match getChunks can chunkRect false true with
    | (can1, Err e) => deferred (can1, Some e)
    | (can1, Ok chunks) => deferred (updateChunks chunk_revalidate can1 chunks, None)
    end.

Definition invalidateAll (can : canvas) : canvas * option error :=
  if Closed can then (can, Some ErrClosed)
  else
    let chunks := getAllChunks can in
    let can1 := updateChunks chunk_invalidateImage can chunks in
    (send can1 canvasEventInvalidateAll, None).

Definition setTime (can : canvas) (t : Z) : canvas * option error :=
  if Closed can then (can, Some ErrClosed)
  else (send (with_Time can t) (canvasEventSetTime t), None).

Definition getTime (can : canvas) : result Z :=
  if Closed can then Err ErrClosed else Ok (Time can).

Definition isValid (can : canvas) (rect : Rectangle) : bool :=
  let chunkRect := getOuterChunkRect (ChunkSize can) rect (Origin can) in
  match getChunks can chunkRect false false with
  | (_, Err _) => false
  | (can1, Ok chunks) =>
    forallb (fun p => match Chunks can1 !! p with
                      | Some ch => Valid ch
                      | None => true
                      end) chunks
  end.

Fixpoint signalDownload_loop (can : canvas) (chunks downloading : list chunkCoordinate)
  : canvas * list chunkCoordinate :=
  match chunks with
  | [] => (can, downloading)
  | p :: rest =>
    match Chunks can !! p with
    | None => signalDownload_loop can rest downloading
    | Some ch =>
      let '(ch', started) := chunk_signalDownload ch in
      signalDownload_loop (with_Chunks can (<[p := ch']> (Chunks can))) rest
        (if started then downloading ++ [p] else downloading)
    end
  end.

Definition signalDownload (can : canvas) (rect : Rectangle)
  : canvas * result (list chunkCoordinate) :=
  if Closed can then (can, Err ErrClosed)
  else
    let deferred (r : canvas * result (list chunkCoordinate)) :=
      (send r.1 (canvasEventSignalDownload rect), r.2) in
    let chunkRect := getOuterChunkRect (ChunkSize can) rect (Origin can) in
    match getChunks can chunkRect true true with
    | (can1, Err e) => deferred (can1, Err e)
    | (can1, Ok chunks) =>
      let '(can2, downloading) := signalDownload_loop can1 chunks [] in
      deferred (can2, Ok downloading)
    end.

(** [Close]: sets the flag and closes the event channel. *)
Definition Close (can : canvas) : canvas :=
  mkCanvas true (ChunkSize can) (Origin can) (Rect can) (Chunks can) (Time can)
           (EventChan can) true.

(** ** The broadcaster and the virtual chunks of a listener *)

Record canvasListenerState : Type := mkListenerState {
  Rects : list Rectangle;
  VirtualChunks : gmap Rectangle Z;
  VirtualChunkIDCounter : Z;
  UseVirtualChunks : bool
}.

(** The calls the broadcaster makes on listeners, as a trace. *)
Inductive callback : Type :=
  | handleChunksChange (l : canvasListener) (create remove : gmap Rectangle Z)
  | handleInvalidateAll (l : canvasListener)
  | handleInvalidateRect (l : canvasListener) (rect : Rectangle) (vcIDs : list Z)
  | handleSetImage (l : canvasListener) (img : Image) (valid : bool) (vcIDs : list Z)
  | handleSetPixel (l : canvasListener) (pos : Point) (col : RGBA) (vcID : Z)
  | handleSignalDownload (l : canvasListener) (rect : Rectangle) (vcIDs : list Z)
  | handleRevalidateRect (l : canvasListener) (rect : Rectangle) (vcIDs : list Z)
  | handleSetTime (l : canvasListener) (t : Z).

(** The rectangle [getVirtualChunks] gives to the tile at [(ix, iy)]. *)
Definition virtualChunkRect (size : pixelSize) (origin : Point) (coord : chunkCoordinate)
  : Rectangle :=
  let min := mkPoint (int_sub (int_mul (X coord) (X size)) (X origin))
                     (int_sub (int_mul (Y coord) (Y size)) (X origin)) in
  let max := Point_Add min (mkPoint (X size) (Y size)) in
  mkRectangle min max.

(** The body of the nested loops of [getVirtualChunks] for one tile. *)
Definition getVirtualChunks_tile (size : pixelSize) (origin : Point) (createNew : bool)
    (acc : gmap Rectangle Z * canvasListenerState) (coord : chunkCoordinate)
  : gmap Rectangle Z * canvasListenerState :=
  let '(vcs, state) := acc in
  let vc := virtualChunkRect size origin coord in
  match VirtualChunks state !! vc with
  | Some vcID => (<[vc := vcID]> vcs, state)
  | None =>
    if createNew then
      let vcID := VirtualChunkIDCounter state in
      (<[vc := vcID]> vcs,
       mkListenerState (Rects state) (VirtualChunks state) (int_add vcID 1)
                       (UseVirtualChunks state))
    else (vcs, state)
  end.

(** [getVirtualChunks]: the virtual chunks that intersect a rectangle, and
    the listener state with its id counter advanced. *)
Definition getVirtualChunks (size : pixelSize) (origin : Point)
    (state : canvasListenerState) (rect : Rectangle) (createNew : bool)
  : gmap Rectangle Z * canvasListenerState :=
  fold_left (getVirtualChunks_tile size origin createNew)
            (chunkCoords (getOuterChunkRect size rect origin)) (∅, state).

(** The ids of a set of virtual chunks, in the map's iteration order. *)
Definition vcsSlice (vcs : gmap Rectangle Z) : list Z := (map_to_list vcs).*2.

(** The [neededChunks] loop of the [canvasEventListenerRects] case. *)
Definition neededChunks_rect (size : pixelSize) (origin : Point)
    (acc : gmap Rectangle Z * canvasListenerState) (rect : Rectangle)
  : gmap Rectangle Z * canvasListenerState :=
  let '(neededChunks, state) := acc in
  let '(tempChunks, state') := getVirtualChunks size origin state rect true in
  (tempChunks ∪ neededChunks, state').

(** The [canvasEventListenerRects] case for a listener with virtual chunks:
    the new state and the maps of created and removed virtual chunks. *)
Definition updateVirtualChunks (size : pixelSize) (origin : Point)
    (state : canvasListenerState) (rects : list Rectangle)
  : canvasListenerState * gmap Rectangle Z * gmap Rectangle Z :=
  let state1 := mkListenerState rects (VirtualChunks state) (VirtualChunkIDCounter state)
                                (UseVirtualChunks state) in
  let '(neededChunks, state2) :=
    fold_left (neededChunks_rect size origin) rects (∅, state1) in
  let createChunks :=
    filter (fun kv => VirtualChunks state2 !! kv.1 = None) neededChunks in
  let removeChunks :=
    filter (fun kv => neededChunks !! kv.1 = None) (VirtualChunks state2) in
  (mkListenerState (Rects state2) neededChunks (VirtualChunkIDCounter state2)
                   (UseVirtualChunks state2),
   createChunks, removeChunks).

(** The image sent for a created virtual chunk, when its chunk exists. *)
Definition createdChunkImage (can : canvas) (l : canvasListener) (kv : Rectangle * Z)
  : list callback :=
  let chunkCoord := getChunkCoord (ChunkSize can) (Min kv.1) (Origin can) in
  match getChunk can chunkCoord false with
  | (_, Ok p) =>
    match Chunks can !! p with
    | Some chunk =>
      match chunk_getImageCopy chunk false with
      | Ok (img, valid, _) => [handleSetImage l img valid [kv.2]]
      | Err _ => []
      end
    | None => []
    end
  | (_, Err _) => []
  end.

(** Delivery of a canvas event with a rectangle to one listener. *)
Definition deliverRect (can : canvas) (rect : Rectangle)
    (cb : canvasListener -> list Z -> callback)
    (ls : canvasListener * canvasListenerState) : list callback :=
  let '(listener, state) := ls in
  if negb (UseVirtualChunks state) then [cb listener []]
  else
    let vcs := (getVirtualChunks (ChunkSize can) (Origin can) state rect false).1 in
    if bool_decide (vcs = ∅) then [] else [cb listener (vcsSlice vcs)].

Definition deliverPixel (can : canvas) (pos : Point) (col : RGBA)
    (ls : canvasListener * canvasListenerState) : list callback :=
  let '(listener, state) := ls in
  if negb (UseVirtualChunks state) then [handleSetPixel listener pos col 0]
  else
    let vcs := (getVirtualChunks (ChunkSize can) (Origin can) state
                  (mkRectangle pos (Point_Add pos (mkPoint 1 1))) false).1 in
    match vcsSlice vcs with
    | vc :: _ => [handleSetPixel listener pos col vc]
    | [] => []
    end.

(** One turn of the broadcaster's loop on an event of [EventChan]: the new
    listener map, the listener calls made, and the rectangles sent to the
    download scheduler ([rectQueryChan]). *)
Definition broadcast (can : canvas) (listeners : gmap nat canvasListenerState)
    (event : canvasEvent)
  : gmap nat canvasListenerState * list callback * list Rectangle :=
  match event with
  | canvasEventSetPixel pos col =>
    (listeners, flat_map (deliverPixel can pos col) (map_to_list listeners), [])
  | canvasEventSetImage img =>
    (listeners,
     flat_map (deliverRect can (Bounds img) (fun l ids => handleSetImage l img true ids))
              (map_to_list listeners), [])
  | canvasEventInvalidateRect rect =>
    (listeners,
     flat_map (deliverRect can rect (fun l ids => handleInvalidateRect l rect ids))
              (map_to_list listeners), [])
  | canvasEventInvalidateAll =>
    (listeners, map (fun ls => handleInvalidateAll ls.1) (map_to_list listeners), [])
  | canvasEventRevalidate rect =>
    (listeners,
     flat_map (deliverRect can rect (fun l ids => handleRevalidateRect l rect ids))
              (map_to_list listeners), [])
  | canvasEventSignalDownload rect =>
    (listeners,
     flat_map (deliverRect can rect (fun l ids => handleSignalDownload l rect ids))
              (map_to_list listeners), [])
  | canvasEventSetTime t =>
    (listeners, map (fun ls => handleSetTime ls.1 t) (map_to_list listeners), [])
  | canvasEventListenerSubscribe l useVirtualChunks =>
    let images :=
      if negb useVirtualChunks then
        flat_map (fun p => match Chunks can !! p with
                           | Some chunk =>
                             match chunk_getImageCopy chunk false with
                             | Ok (img, valid, _) => [handleSetImage l img valid []]
                             | Err _ => []
                             end
                           | None => []
                           end) (getAllChunks can)
      else [] in
    let time := match getTime can with
                | Ok t => [handleSetTime l t]
                | Err _ => []
                end in
    (<[l := mkListenerState [] ∅ 1 useVirtualChunks]> listeners, images ++ time, [])
  | canvasEventListenerUnsubscribe l =>
    (delete l listeners, [], [])
  | canvasEventListenerRects l rects =>
    match listeners !! l with
    | None => (listeners, [], [])
    | Some state =>
      if negb (UseVirtualChunks state) then
        (<[l := mkListenerState rects (VirtualChunks state) (VirtualChunkIDCounter state)
                                (UseVirtualChunks state)]> listeners, [], rects)
      else
        let '(state', createChunks, removeChunks) :=
          updateVirtualChunks (ChunkSize can) (Origin can) state rects in
        let change :=
          if bool_decide (createChunks = ∅) && bool_decide (removeChunks = ∅) then []
          else [handleChunksChange l createChunks removeChunks] in
        (<[l := state']> listeners,
         change ++ flat_map (createdChunkImage can l) (map_to_list createChunks),
         rects)
    end
  end.

(** ** The replayer ([newCanvasDiskReader]) *)

(** A directory entry of the recordings directory: its name and, when the
    file can be opened and decompressed, the uncompressed stream. *)
Record recording : Type := mkRecording {
  Name : string;
  Content : option (list Z)
}.

(** [filepath.Ext] on a file name: the suffix from the last dot on. *)
Fixpoint filepath_Ext (name : string) : string :=
  match name with
  | EmptyString => EmptyString
  | String c rest =>
    match filepath_Ext rest with
    | EmptyString => if Ascii.eqb c "."%char then name else EmptyString
    | ext => ext
    end
  end.

(** The read loop [for recTime.Before(curTime) { ... }] on a stream: it
    stops when the recording time has caught up, or on the first read
    error.  Every turn consumes at least the nine bytes of a frame head, so
    the length of the stream bounds the number of turns. *)
Inductive readResult : Type :=
  | CaughtUp (calls : list canvasCall) (stream : list Z) (recTime : Z)
  | ReadFailed (calls : list canvasCall) (e : error)
  | OutOfTurns.

Fixpoint readLoop (turns : nat) (stream : list Z) (recTime curTime : Z)
    (calls : list canvasCall) : readResult :=
  if negb (recTime <? curTime) then CaughtUp calls stream recTime
  else
    match turns with
    | O => OutOfTurns
    | S turns' =>
      match readEvent stream with
      | Err e => ReadFailed calls e
      | Ok (binTime, cs, rest) => readLoop turns' rest binTime curTime (calls ++ cs)
      end
    end.

Definition readUntil (stream : list Z) (recTime curTime : Z) : readResult :=
  readLoop (S (length stream)) stream recTime curTime [].

(** Where the replayer goroutine waits for the next time demand. *)
Inductive position : Type :=
  | InFile (rest : list recording) (stream : list Z) (recTime : Z)
      (* inside a recording, at [tempTime, ok := <-cdr.TimeChan] *)
  | AtEnd
      (* after the last file, at the receive that follows the file loop *)
  | Stopped.

Record replayer : Type := mkReplayer { curTime : Z; pos : position }.

(** The file loop up to the next receive: files that are not [.pixrec], that
    do not open or whose header is refused are passed over without a call
    on the canvas. *)
Fixpoint openNext (files : list recording) : position :=
  match files with
  | [] => AtEnd
  | f :: rest =>
    if negb (String.eqb (filepath_Ext (Name f)) ".pixrec") then openNext rest
    else match Content f with
         | None => openNext rest
         | Some s =>
           match parseHeader s with
           | Err _ => openNext rest
           | Ok (recTime, _, stream) => InFile rest stream recTime
           end
         end
  end.

(** The goroutine's start: the first value received is [curTime]. *)
Definition replayer_start (files : list recording) (t : Z) : replayer :=
  mkReplayer t (openNext files).

(** A time demand [t] arrives on [TimeChan]: the new state of the goroutine
    and the calls it makes on the canvas until it waits again.  Leaving a
    file runs the deferred [invalidateAll]. *)
Definition replayer_demand (files : list recording) (r : replayer) (t : Z)
  : replayer * list canvasCall :=
  match pos r with
  | InFile rest stream recTime =>
    if t <? curTime r then
      (mkReplayer (curTime r) (openNext files), [CallInvalidateAll])
    else
      match readUntil stream recTime t with
      | CaughtUp calls stream' recTime' =>
        (mkReplayer t (InFile rest stream' recTime'), calls)
      | ReadFailed calls _ =>
        (mkReplayer t (openNext rest), calls ++ [CallInvalidateAll])
      | OutOfTurns => (mkReplayer t Stopped, [])
      end
  | AtEnd => (mkReplayer t (openNext files), [])
  | Stopped => (r, [])
  end.

(** [TimeChan] is closed. *)
Definition replayer_close (r : replayer) : replayer * list canvasCall :=
  match pos r with
  | InFile _ _ _ => (mkReplayer (curTime r) Stopped, [CallInvalidateAll])
  | _ => (mkReplayer (curTime r) Stopped, [])
  end.

(** The goroutine on a sequence of time demands. *)
Fixpoint replayer_run (files : list recording) (r : replayer) (demands : list Z)
  : replayer * list canvasCall :=
  match demands with
  | [] => (r, [])
  | t :: rest =>
    let '(r1, calls1) := replayer_demand files r t in
    let '(r2, calls2) := replayer_run files r1 rest in
    (r2, calls1 ++ calls2)
  end.


(** A call of the replayer carried out on the canvas; the replayer drops
    the results of its calls. *)
Definition applyCall (can : canvas) (c : canvasCall) : canvas :=
  match c with
  | CallSetPixel pos col => (setPixel can pos col).1
  | CallInvalidateRect rect => (invalidateRect can rect).1
  | CallInvalidateAll => (invalidateAll can).1
  | CallRevalidateRect rect => (revalidateRect can rect).1
  | CallSignalDownload rect => (signalDownload can rect).1
  | CallSetImage img create ignore => (setImage can img create ignore).1
  end.

Definition applyCalls (can : canvas) (cs : list canvasCall) : canvas :=
  fold_left applyCall cs can.

(** * Notions used to state the properties *)

(** ** Virtual-chunk ids *)

(** The tiles [getVirtualChunks] visits for a list of rectangles. *)
Definition tilesOf (size : pixelSize) (origin : Point) (rects : list Rectangle)
  : list Rectangle :=
  flat_map (fun r => map (virtualChunkRect size origin)
                         (chunkCoords (getOuterChunkRect size r origin))) rects.



Definition idsUnique (V : gmap Rectangle Z) : Prop :=
  forall k1 k2 id, V !! k1 = Some id -> V !! k2 = Some id -> k1 = k2.


(** [m] holds ids kept from [V] and ids newly drawn from [[c0, c)]. *)
Definition extends (V : gmap Rectangle Z) (c0 c : Z) (m : gmap Rectangle Z) : Prop :=
  (forall k id, m !! k = Some id ->
     V !! k = Some id \/ (V !! k = None /\ c0 <= id < c)) /\
  idsUnique m.

(** Two listener states that differ in the id counter at most. *)
Definition sameListener (a b : canvasListenerState) : Prop :=
  VirtualChunks a = VirtualChunks b /\ Rects a = Rects b /\
  UseVirtualChunks a = UseVirtualChunks b.




(** The events that subscribe listener [l], cancel its subscription or
    carry its viewport. *)
Definition concerns (l : canvasListener) (event : canvasEvent) : bool :=
  match event with
  | canvasEventListenerSubscribe l' _ => bool_decide (l' = l)
  | canvasEventListenerUnsubscribe l' => bool_decide (l' = l)
  | canvasEventListenerRects l' _ => bool_decide (l' = l)
  | _ => false
  end.

(** The listener a call of the broadcaster goes to. *)
Definition callbackListener (cb : callback) : canvasListener :=
  match cb with
  | handleChunksChange l _ _ => l
  | handleInvalidateAll l => l
  | handleInvalidateRect l _ _ => l
  | handleSetImage l _ _ _ => l
  | handleSetPixel l _ _ _ => l
  | handleSignalDownload l _ _ => l
  | handleRevalidateRect l _ _ => l
  | handleSetTime l _ => l
  end.

(** ** Canvases *)

(** Two canvases with the same grid and the same chunks. *)
Definition sameChunks (a b : canvas) : Prop :=
  ChunkSize a = ChunkSize b /\ Origin a = Origin b /\ Chunks a = Chunks b.

(** An open canvas without chunks: chunks of 256 by 256, origin (0, 0). *)
Definition demoCanvas : canvas :=
  newCanvas (mkPoint 256 256) (mkPoint 0 0)
            (image_Rect MinInt32 MinInt32 MaxInt32 MaxInt32).

(** ** Chunk-grid tiles *)

(** Following the specification: chunk coordinate [(cx, cy)] covers the
    pixel rectangle with minimum corner [(cx*W - Ox, cy*H - Oy)], [W] wide
    and [H] high.  To be compared with [virtualChunkRect], the rectangle of
    the source. *)
Definition gridTile (size : pixelSize) (origin : Point) (coord : chunkCoordinate)
  : Rectangle :=
  mkRectangle
    (mkPoint (X coord * X size - X origin) (Y coord * Y size - Y origin))
    (mkPoint (X coord * X size - X origin + X size)
             (Y coord * Y size - Y origin + Y size)).

(** Following the specification: the chunk-grid tiles of the outer chunk
    rectangles of a viewport. *)
Definition gridTilesOf (size : pixelSize) (origin : Point) (rects : list Rectangle)
  : list Rectangle :=
  flat_map (fun r => map (gridTile size origin)
                         (chunkCoords (getOuterChunkRect size r origin))) rects.

(** An open canvas without chunks whose origin has two different
    coordinates: chunks of 256 by 256, origin (0, 100). *)
Definition shiftedCanvas : canvas :=
  newCanvas (mkPoint 256 256) (mkPoint 0 100)
            (image_Rect MinInt32 MinInt32 MaxInt32 MaxInt32).

(** ** Recordings *)

(** Streams in the layout the reader consumes, for the examples. *)
Definition readerHeader (version time width height : Z) : list Z :=
  put_u32 MagicNumber ++ put_u16 version ++ put_i64 time ++
  put_u32 width ++ put_u32 height ++ put_u16 0.

Definition readerSetPixel (time x y r g b : Z) : list Z :=
  put_u8 10 ++ put_i64 time ++ put_i32 x ++ put_i32 y ++ put_u8 r ++ put_u8 g ++ put_u8 b.

(** The calls that apply a recorded event to a canvas directly. *)
Definition eventCalls (palette : list RGBA) (e : writerEvent) : list canvasCall :=
  match e with
  | WSetPixel pos i =>
    match palette !! Z.to_nat i with
    | Some c => [CallSetPixel pos (mkRGBA (R c) (G c) (B c) 255)]
    | None => []
    end
  | WInvalidateRect rect => [CallInvalidateRect rect]
  | WInvalidateAll => [CallInvalidateAll]
  | WSetImage img =>
    [CallSignalDownload (P_Bounds img);
     CallSetImage (mkImage (P_Bounds img) (P_RGBA img)) false true]
  end.

(** The calls the reader makes when it replays a whole stream of frames. *)
Definition replayFrames (stream : list Z) : list canvasCall :=
  match readUntil stream minInt (maxInt + 1) with
  | CaughtUp calls _ _ => calls
  | ReadFailed calls _ => calls
  | OutOfTurns => []
  end.

(** The calls the reader makes when it replays a whole recording. *)
Definition replayRecording (file : list Z) : list canvasCall :=
  match parseHeader file with
  | Ok (_, _, stream) => replayFrames stream
  | Err _ => []
  end.

(** The bytes a handler call appended to the writer's stream. *)
Definition written (cdw : canvasDiskWriter) (r : canvasDiskWriter * option error) : list Z :=
  drop (length (ZipWriter cdw)) (ZipWriter r.1).

(** A writer frame with the eight bytes of a time put after its data type. *)
Definition withTime (t : Z) (frame : list Z) : list Z :=
  take 1 frame ++ put_i64 t ++ drop 1 frame.

(** The number of bytes of the writer's frame for an event. *)
Definition frameSize (e : writerEvent) : nat :=
  match e with
  | WSetPixel _ _ => 12
  | WInvalidateRect _ => 17
  | WInvalidateAll => 1
  | WSetImage img => 17 + length (P_RGBA img)
  end.

(** A directory entry the replayer's file loop opens: a [.pixrec] file that
    can be read and whose header [parseHeader] accepts. *)
Definition usable (f : recording) : Prop :=
  filepath_Ext (Name f) = ".pixrec"%string /\
  exists content, Content f = Some content /\ is_ok (parseHeader content) = true.

(** The codec scenario: a palette of one colour and three events. *)
Definition scenarioPalette : list RGBA := [mkRGBA 10 20 30 255].

Definition scenarioEvents : list writerEvent :=
  [WSetPixel (mkPoint 7 8) 0;
   WInvalidateRect (image_Rect 0 0 10 10);
   WSetImage (mkPaletted (image_Rect 0 0 2 1) [1; 2; 3; 255; 4; 5; 6; 255])].

(** The seek scenario: a recording of two files, with pixels at the times
    110 and 120 in the first and 210 and 220 in the second. *)
Definition seekFile1 : recording :=
  mkRecording "2019-01-01T000000Z.pixrec"
    (Some (readerHeader 1 100 256 256 ++
           readerSetPixel 110 1 1 10 20 30 ++ readerSetPixel 120 2 2 10 20 30)).

Definition seekFile2 : recording :=
  mkRecording "2019-01-02T000000Z.pixrec"
    (Some (readerHeader 1 200 256 256 ++
           readerSetPixel 210 3 3 10 20 30 ++ readerSetPixel 220 4 4 10 20 30)).

Definition seekFiles : list recording := [seekFile1; seekFile2].

(** * Properties *)

(** ** Machine integers and the byte codec *)

Lemma int_wrap_id v : is_int v -> int_wrap v = v.
Proof.
  unfold is_int, minInt, maxInt, int_wrap, swrap. intros Hv.
  change (64 - 1) with 63.
  rewrite Z.mod_small; lia.
Qed.

Lemma int_wrap_range v : is_int (int_wrap v).
Proof.
  unfold is_int, minInt, maxInt, int_wrap, swrap.
  change (64 - 1) with 63.
  pose proof (Z.mod_pos_bound (v + 2 ^ 63) (2 ^ 64) ltac:(lia)). lia.
Qed.

Lemma le_put_length n v : length (le_put n v) = n.
Proof. revert v. induction n as [|n IH]; intros v; simpl; [done|]. by rewrite IH. Qed.

Lemma le_get_put n v : le_get (le_put n v) = v mod 256 ^ Z.of_nat n.
Proof.
  revert v. induction n as [|n IH]; intros v.
  - simpl. by rewrite Z.mod_1_r.
  - cbn [le_put le_get]. rewrite IH.
    rewrite Nat2Z.inj_succ, Z.pow_succ_r by lia.
    rewrite Z.rem_mul_r by lia. lia.
Qed.

(** ** Virtual-chunk ids *)

Section VirtualChunkIds.

Variables (size : pixelSize) (origin : Point).

Lemma tile_shape st m coord :
  let r := getVirtualChunks_tile size origin true (m, st) coord in
  sameListener r.2 st /\ dom r.1 = {[virtualChunkRect size origin coord]} ∪ dom m.
Proof.
  unfold getVirtualChunks_tile, sameListener. cbn zeta.
  destruct (VirtualChunks st !! _); cbn; by rewrite dom_insert_L.
Qed.

Lemma tiles_shape coords : forall st m,
  let r := fold_left (getVirtualChunks_tile size origin true) coords (m, st) in
  sameListener r.2 st /\
  dom r.1 = list_to_set (map (virtualChunkRect size origin) coords) ∪ dom m.
Proof.
  induction coords as [|coord coords IH]; intros st m.
  - cbn. unfold sameListener. split; [done | set_solver].
  - cbn [fold_left map list_to_set].
    pose proof (tile_shape st m coord) as H1. cbn zeta in H1.
    destruct (getVirtualChunks_tile size origin true (m, st) coord) as [m1 st1].
    destruct H1 as [(Ha & Hb & Hc) Hd]. cbn [fst snd] in *.
    destruct (IH st1 m1) as [(Ha' & Hb' & Hc') Hd']. cbn zeta.
    split; [unfold sameListener; split_and!; congruence|].
    rewrite Hd', Hd. clear. set_solver.
Qed.

Lemma neededChunks_shape rects : forall st needed,
  let r := fold_left (neededChunks_rect size origin) rects (needed, st) in
  sameListener r.2 st /\ dom r.1 = list_to_set (tilesOf size origin rects) ∪ dom needed.
Proof.
  induction rects as [|rect rects IH]; intros st needed.
  - cbn. unfold sameListener. split; [done | set_solver].
  - pose proof (tiles_shape (chunkCoords (getOuterChunkRect size rect origin)) st ∅) as H1.
    cbn zeta in H1. fold (getVirtualChunks size origin st rect true) in H1.
    destruct (getVirtualChunks size origin st rect true) as [temp st1] eqn:Hg.
    destruct H1 as [(Ha & Hb & Hc) Hd]. cbn [fst snd] in *.
    assert (fold_left (neededChunks_rect size origin) (rect :: rects) (needed, st)
            = fold_left (neededChunks_rect size origin) rects (temp ∪ needed, st1)) as ->.
    { cbn [fold_left]. unfold neededChunks_rect at 2. by rewrite Hg. }
    destruct (IH st1 (temp ∪ needed)) as [(Ha' & Hb' & Hc') Hd']. cbn zeta.
    split; [unfold sameListener; split_and!; congruence|].
    rewrite Hd', dom_union_L, Hd, dom_empty_L. unfold tilesOf. cbn [flat_map].
    rewrite !list_to_set_app_L. clear. set_solver.
Qed.

Lemma updateVirtualChunks_shape st rects :
  let st' := (updateVirtualChunks size origin st rects).1.1 in
  Rects st' = rects /\ UseVirtualChunks st' = UseVirtualChunks st /\
  dom (VirtualChunks st') = list_to_set (tilesOf size origin rects).
Proof.
  unfold updateVirtualChunks.
  set (st1 := mkListenerState rects _ _ _).
  pose proof (neededChunks_shape rects st1 ∅) as H. cbn zeta in H.
  destruct (fold_left (neededChunks_rect size origin) rects (∅, st1)) as [needed st2].
  destruct H as [(Ha & Hb & Hc) Hd]. cbn [fst snd] in *. subst st1. cbn in *.
  split_and!; [done | done |]. rewrite Hd, dom_empty_L. set_solver.
Qed.

Lemma elem_of_tilesOf k rects :
  k ∈ tilesOf size origin rects <->
  exists rect coord, rect ∈ rects /\
    coord ∈ chunkCoords (getOuterChunkRect size rect origin) /\
    k = virtualChunkRect size origin coord.
Proof.
  unfold tilesOf. rewrite list_elem_of_In, in_flat_map. split.
  - intros (rect & Hr & Hk). apply in_map_iff in Hk as (coord & <- & Hc).
    exists rect, coord. by rewrite !list_elem_of_In.
  - intros (rect & coord & Hr & Hc & ->). exists rect.
    rewrite <- list_elem_of_In. split; [done|].
    apply in_map_iff. exists coord. by rewrite <- list_elem_of_In.
Qed.


Lemma extends_widen V c0 c0' c c' m :
  c0' <= c0 -> c <= c' -> extends V c0 c m -> extends V c0' c' m.
Proof.
  intros H0 H1 [Hm Hu]. split; [|done].
  intros k id Hk. destruct (Hm k id Hk) as [Hl|[Hl Hr]]; [by left | right; split; [done | lia]].
Qed.













End VirtualChunkIds.

(** ** The broadcaster on subscriptions and viewports *)


Lemma broadcast_rects_virtual can listeners l st rects :
  listeners !! l = Some st -> UseVirtualChunks st = true ->
  (broadcast can listeners (canvasEventListenerRects l rects)).1.1 !! l
  = Some (updateVirtualChunks (ChunkSize can) (Origin can) st rects).1.1.
Proof.
  intros Hl Hu. cbn [broadcast]. rewrite Hl, Hu. cbn [negb].
  destruct (updateVirtualChunks _ _ st rects) as [[st' c] r]. cbn.
  apply lookup_insert_eq.
Qed.





(** Events that do not concern listener [l] leave the state the broadcaster
    keeps for [l] alone. *)
Lemma broadcast_other_event can listeners l event :
  concerns l event = false ->
  (broadcast can listeners event).1.1 !! l = listeners !! l.
Proof.
  destruct event as [| | | | | |l' u|l'|l' rects|]; cbn [concerns broadcast fst]; try done.
  - intros Hne%bool_decide_eq_false. by rewrite lookup_insert_ne.
  - intros Hne%bool_decide_eq_false. by rewrite lookup_delete_ne.
  - intros Hne%bool_decide_eq_false.
    destruct (listeners !! l') as [st|]; [|done].
    destruct (negb (UseVirtualChunks st)); cbn [fst].
    + by rewrite lookup_insert_ne.
    + destruct (updateVirtualChunks _ _ st rects) as [[st' c] r]. cbn [fst].
      by rewrite lookup_insert_ne.
Qed.



(** The viewport churn of the specification's scenario: ids 1, 2 and then 3
    for the tile that comes back. *)
Example viewport_churn :
  let st0 := mkListenerState [] ∅ 1 true in
  let u1 := updateVirtualChunks (mkPoint 256 256) (mkPoint 0 0) st0 [image_Rect 0 0 100 100] in
  let u2 := updateVirtualChunks (mkPoint 256 256) (mkPoint 0 0) u1.1.1
              [image_Rect 300 300 400 400] in
  let u3 := updateVirtualChunks (mkPoint 256 256) (mkPoint 0 0) u2.1.1
              [image_Rect 0 0 100 100] in
  map_to_list u1.1.2 = [(image_Rect 0 0 256 256, 1)] /\ map_to_list u1.2 = [] /\
  map_to_list u2.1.2 = [(image_Rect 256 256 512 512, 2)] /\
  map_to_list u2.2 = [(image_Rect 0 0 256 256, 1)] /\
  map_to_list u3.1.2 = [(image_Rect 0 0 256 256, 3)] /\
  map_to_list u3.2 = [(image_Rect 256 256 512 512, 2)].
Proof. vm_compute. done. Qed.

(** The keys a viewport leaves, in terms of the rectangles the source
    computes.  When the broadcaster handles the viewport [rs] of a listener
    with virtual chunks, the keys of the listener's [VirtualChunks] become
    exactly the rectangles [getVirtualChunks] computes for the chunk
    coordinates in the outer chunk rectangle of some rectangle of [rs]. *)
Lemma viewport_keys_exact (can : canvas) (listeners : gmap nat canvasListenerState)
    (l : canvasListener) (st : canvasListenerState) (rs : list Rectangle) :
  listeners !! l = Some st ->
  UseVirtualChunks st = true ->
  exists st',
    (broadcast can listeners (canvasEventListenerRects l rs)).1.1 !! l = Some st' /\
    Rects st' = rs /\
    forall k : Rectangle,
      k ∈ dom (VirtualChunks st') <->
      exists rect coord,
        rect ∈ rs /\
        coord ∈ chunkCoords (getOuterChunkRect (ChunkSize can) rect (Origin can)) /\
        k = virtualChunkRect (ChunkSize can) (Origin can) coord.
Proof.
  intros Hl Hu.
  exists (updateVirtualChunks (ChunkSize can) (Origin can) st rs).1.1.
  split; [by apply broadcast_rects_virtual|].
  destruct (updateVirtualChunks_shape (ChunkSize can) (Origin can) st rs) as (HR & _ & Hd).
  cbn zeta in *. split; [done|].
  intros k. rewrite Hd, elem_of_list_to_set. apply elem_of_tilesOf.
Qed.

(** The rectangle of the source is the chunk-grid tile when the origin has
    two equal coordinates and no product, difference or sum leaves the range
    of [int]. *)
Lemma virtualChunkRect_gridTile (size : pixelSize) (origin : Point)
    (coord : chunkCoordinate) :
  X origin = Y origin ->
  is_int (X coord * X size) -> is_int (Y coord * Y size) ->
  is_int (X coord * X size - X origin) -> is_int (Y coord * Y size - Y origin) ->
  is_int (X coord * X size - X origin + X size) ->
  is_int (Y coord * Y size - Y origin + Y size) ->
  virtualChunkRect size origin coord = gridTile size origin coord.
Proof.
  intros Ho H1 H2 H3 H4 H5 H6.
  rewrite <- Ho in H4, H6.
  unfold virtualChunkRect, gridTile, Point_Add, int_add, int_sub, int_mul. cbn.
  rewrite <- Ho.
  rewrite (int_wrap_id _ H1), (int_wrap_id _ H2), (int_wrap_id _ H3), (int_wrap_id _ H4).
  by rewrite (int_wrap_id _ H5), (int_wrap_id _ H6).
Qed.

(** C9 on a canvas with chunks of 256 by 256 and origin (0, 100), for a
    listener with virtual chunks that registers the viewport
    (0,200)-(10,210).  The outer chunk rectangle of the viewport holds the
    one chunk coordinate (0, 1), whose chunk-grid tile is (0,156)-(256,412);
    it contains the viewport.  After the broadcaster has handled the event
    the listener's [VirtualChunks] has the one key (0,256)-(256,512), with
    id 1: the tile's Y is offset by the origin's X.  The chunk-grid tile is
    not a key, and the key does not contain the viewport. *)
Theorem C9_viewport_keys_off_grid :
  let can := shiftedCanvas in
  let viewport := image_Rect 0 200 10 210 in
  let listeners : gmap nat canvasListenerState :=
    {[ 7%nat := mkListenerState [] ∅ 1 true ]} in
  let after := (broadcast can listeners (canvasEventListenerRects 7%nat [viewport])).1.1 in
  chunkCoords (getOuterChunkRect (ChunkSize can) viewport (Origin can)) = [mkPoint 0 1] /\
  gridTilesOf (ChunkSize can) (Origin can) [viewport]
  = [mkRectangle (mkPoint 0 156) (mkPoint 256 412)] /\
  (Rects <$> after !! 7%nat) = Some [viewport] /\
  (map_to_list <$> (VirtualChunks <$> after !! 7%nat))
  = Some [(mkRectangle (mkPoint 0 256) (mkPoint 256 512), 1)] /\
  ((fun st => VirtualChunks st !! mkRectangle (mkPoint 0 156) (mkPoint 256 412))
     <$> after !! 7%nat) = Some None /\
  Point_In (Min viewport) (mkRectangle (mkPoint 0 156) (mkPoint 256 412)) = true /\
  Point_In (Min viewport) (mkRectangle (mkPoint 0 256) (mkPoint 256 512)) = false.
Proof. vm_compute. done. Qed.

(** C10. On an open canvas [registerRects] for a listener that is not
    subscribed succeeds and sends its event; the broadcaster, finding no
    state for the listener, leaves the listener map as it is, calls no
    listener and asks the download scheduler for nothing. *)
Theorem C10_registerRects_unsubscribed (can : canvas)
    (listeners : gmap nat canvasListenerState) (l : canvasListener)
    (rects : list Rectangle) :
  Closed can = false ->
  listeners !! l = None ->
  (registerRects can l rects).2 = None /\
  EventChan (registerRects can l rects).1
    = EventChan can ++ [canvasEventListenerRects l rects] /\
  broadcast can listeners (canvasEventListenerRects l rects) = (listeners, [], []).
Proof.
  intros Hopen Hl. unfold registerRects. rewrite Hopen. cbn [fst snd send EventChan broadcast].
  by rewrite Hl.
Qed.

Lemma C10_registerRects_unsubscribed_witness :
  (registerRects demoCanvas 3%nat [image_Rect 0 0 100 100]).2 = None /\
  EventChan (registerRects demoCanvas 3%nat [image_Rect 0 0 100 100]).1
    = EventChan demoCanvas ++ [canvasEventListenerRects 3%nat [image_Rect 0 0 100 100]] /\
  broadcast demoCanvas {[ 7%nat := mkListenerState [] ∅ 1 true ]}
            (canvasEventListenerRects 3%nat [image_Rect 0 0 100 100])
  = ({[ 7%nat := mkListenerState [] ∅ 1 true ]}, [], []).
Proof.
  apply (C10_registerRects_unsubscribed demoCanvas
           {[ 7%nat := mkListenerState [] ∅ 1 true ]} 3%nat [image_Rect 0 0 100 100]).
  - reflexivity.
  - reflexivity.
Defined.

(** ** Canvas mutators, events and the closed flag *)

















(** A lookup of chunks that creates nothing leaves the canvas alone, and its
    answer is decided by the chunk map. *)
Lemma getChunks_loop_lookup coords : forall can can' ignore acc,
  Chunks can = Chunks can' ->
  (getChunks_loop can coords false ignore acc).1 = can /\
  (getChunks_loop can coords false ignore acc).2
  = (getChunks_loop can' coords false ignore acc).2.
Proof.
  induction coords as [|coord coords IH]; intros can can' ignore acc Heq; [done|].
  cbn [getChunks_loop]. unfold getChunk. rewrite <- Heq.
  destruct (Chunks can !! coord); cbn [negb].
  - by apply IH.
  - destruct ignore; cbn [negb fst snd]; [by apply IH | done].
Qed.

Lemma getImageCopy_loop_chunks chunks : forall can can' rect onlyIfValid img,
  Chunks can = Chunks can' ->
  getImageCopy_loop can chunks rect onlyIfValid img
  = getImageCopy_loop can' chunks rect onlyIfValid img.
Proof.
  induction chunks as [|p chunks IH]; intros can can' rect onlyIfValid img Heq; [done|].
  cbn [getImageCopy_loop]. rewrite <- Heq.
  destruct (Chunks can !! p) as [ch|]; [|by apply IH].
  destruct (chunk_getImageCopy ch onlyIfValid) as [[[imgCopy v] d]|e].
  - by apply IH.
  - destruct onlyIfValid; [done | by apply IH].
Qed.

Lemma getImageCopy_sameChunks can can' rect onlyIfValid ignoreNonexistent :
  sameChunks can can' ->
  getImageCopy can rect onlyIfValid ignoreNonexistent
  = getImageCopy can' rect onlyIfValid ignoreNonexistent.
Proof.
  intros (Hs & Ho & Hc). unfold getImageCopy, getChunks. rewrite <- Hs, <- Ho.
  destruct (getChunks_loop_lookup
              (chunkCoords (Rect_Canon (getOuterChunkRect (ChunkSize can) rect (Origin can))))
              can can' ignoreNonexistent [] Hc) as [_ H2].
  destruct (getChunks_loop can _ false ignoreNonexistent []) as [c1 r1],
           (getChunks_loop can' _ false ignoreNonexistent []) as [c2 r2].
  cbn [snd] in H2. subst r2. destruct r1 as [chunks|e]; [|done].
  by apply getImageCopy_loop_chunks.
Qed.

Lemma isValid_sameChunks can can' rect :
  sameChunks can can' -> isValid can rect = isValid can' rect.
Proof.
  intros (Hs & Ho & Hc). unfold isValid, getChunks. rewrite <- Hs, <- Ho.
  destruct (getChunks_loop_lookup
              (chunkCoords (Rect_Canon (getOuterChunkRect (ChunkSize can) rect (Origin can))))
              can can' false [] Hc) as [H1 H2].
  destruct (getChunks_loop_lookup
              (chunkCoords (Rect_Canon (getOuterChunkRect (ChunkSize can) rect (Origin can))))
              can' can false [] (eq_sym Hc)) as [H1' _].
  destruct (getChunks_loop can _ false false []) as [c1 r1],
           (getChunks_loop can' _ false false []) as [c2 r2].
  cbn [fst snd] in *. subst c1 c2 r2. destruct r1 as [chunks|e]; [|done].
  by rewrite Hc.
Qed.

(** C5 (as the code has it).  On a closed canvas the operations that check
    the flag ([subscribeListener], [unsubscribeListener], [registerRects],
    [setPixel], [setImage], [invalidateRect], [invalidateAll],
    [revalidateRect], [signalDownload], [setTime], [getTime]) fail with the
    closed error and leave the canvas as it is.  [getImageCopy] and
    [isValid] make no such check: their answer is the one of any canvas
    with the same grid and chunks, open or closed. *)
Theorem C5_closed_canvas (can : canvas) :
  Closed can = true ->
  (forall l u, subscribeListener can l u = (can, Some ErrClosed)) /\
  (forall l, unsubscribeListener can l = (can, Some ErrClosed)) /\
  (forall l rects, registerRects can l rects = (can, Some ErrClosed)) /\
  (forall pos col, setPixel can pos col = (can, Some ErrClosed)) /\
  (forall img create ignore, setImage can img create ignore = (can, Some ErrClosed)) /\
  (forall rect, invalidateRect can rect = (can, Some ErrClosed)) /\
  invalidateAll can = (can, Some ErrClosed) /\
  (forall rect, revalidateRect can rect = (can, Some ErrClosed)) /\
  (forall rect, signalDownload can rect = (can, Err ErrClosed)) /\
  (forall t, setTime can t = (can, Some ErrClosed)) /\
  getTime can = Err ErrClosed /\
  (forall can' rect onlyIfValid ignoreNonexistent,
     sameChunks can can' ->
     getImageCopy can rect onlyIfValid ignoreNonexistent
     = getImageCopy can' rect onlyIfValid ignoreNonexistent) /\
  (forall can' rect, sameChunks can can' -> isValid can rect = isValid can' rect).
Proof.
  intros Hclosed.
  unfold subscribeListener, unsubscribeListener, registerRects, setPixel, setImage,
    invalidateRect, invalidateAll, revalidateRect, signalDownload, setTime, getTime.
  rewrite Hclosed. split_and!; try done.
  - intros. by apply getImageCopy_sameChunks.
  - intros. by apply isValid_sameChunks.
Qed.

Lemma Close_sameChunks can : sameChunks (Close can) can.
Proof. done. Qed.

Lemma C5_closed_canvas_witness :
  (forall l u, subscribeListener (Close demoCanvas) l u = (Close demoCanvas, Some ErrClosed)) /\
  (forall l, unsubscribeListener (Close demoCanvas) l = (Close demoCanvas, Some ErrClosed)) /\
  (forall l rects, registerRects (Close demoCanvas) l rects = (Close demoCanvas, Some ErrClosed)) /\
  (forall pos col, setPixel (Close demoCanvas) pos col = (Close demoCanvas, Some ErrClosed)) /\
  (forall img create ignore,
     setImage (Close demoCanvas) img create ignore = (Close demoCanvas, Some ErrClosed)) /\
  (forall rect, invalidateRect (Close demoCanvas) rect = (Close demoCanvas, Some ErrClosed)) /\
  invalidateAll (Close demoCanvas) = (Close demoCanvas, Some ErrClosed) /\
  (forall rect, revalidateRect (Close demoCanvas) rect = (Close demoCanvas, Some ErrClosed)) /\
  (forall rect, signalDownload (Close demoCanvas) rect = (Close demoCanvas, Err ErrClosed)) /\
  (forall t, setTime (Close demoCanvas) t = (Close demoCanvas, Some ErrClosed)) /\
  getTime (Close demoCanvas) = Err ErrClosed /\
  (forall can' rect onlyIfValid ignoreNonexistent,
     sameChunks (Close demoCanvas) can' ->
     getImageCopy (Close demoCanvas) rect onlyIfValid ignoreNonexistent
     = getImageCopy can' rect onlyIfValid ignoreNonexistent) /\
  (forall can' rect,
     sameChunks (Close demoCanvas) can' -> isValid (Close demoCanvas) rect = isValid can' rect).
Proof.
  apply (C5_closed_canvas (Close demoCanvas)). reflexivity.
Defined.

(** C5 as stated fails: on the closed canvas [getImageCopy] returns an
    image, the transparent one, and no closed error; [isValid] returns a
    boolean and has no error to return. *)
Lemma C5_counterexample :
  Closed (Close demoCanvas) = true /\
  getImageCopy (Close demoCanvas) (image_Rect 0 0 2 1) false true
  = Ok (mkImage (image_Rect 0 0 2 1) [0; 0; 0; 0; 0; 0; 0; 0]) /\
  isValid (Close demoCanvas) (image_Rect 0 0 2 1) = false.
Proof. split_and!; vm_compute; reflexivity. Qed.

(** ** The recording header and the reader's checks *)

Lemma read_bytes_app n h body :
  Z.of_nat (length h) = n -> 0 < n -> read_bytes n (h ++ body) = Ok (h, body).
Proof.
  intros Hlen Hpos. unfold read_bytes.
  destruct (Z.eqb_spec n 0) as [->|_]; [lia|].
  destruct (h ++ body) as [|b s] eqn:Hs.
  - apply app_eq_nil in Hs as [-> _]. cbn in Hlen. lia.
  - rewrite <- Hs. rewrite length_app.
    destruct (Z.ltb_spec (Z.of_nat (length h + length body)) n) as [Hlt|_]; [lia|].
    replace (Z.to_nat n) with (length h) by lia.
    by rewrite take_app_length, drop_app_length.
Qed.




(** A frame of a data type the [switch] does not know is passed over and the
    bytes after its time are read as the next frame. *)
Example unknown_data_type_is_skipped :
  readUntil ([99] ++ put_i64 7 ++ readerSetPixel 8 1 2 10 20 30) 0 1000
  = ReadFailed [CallSetPixel (mkPoint 1 2) (mkRGBA 10 20 30 255)] ErrEOF.
Proof. vm_compute. reflexivity. Qed.

(** ** The writer against the reader *)

(** C1 at the codec scenario of the specification.  The writer records the
    three events without an error; applied directly they are four canvas
    calls.  Read back, the recording yields none of them: the reader takes
    the first eight bytes after the 16-byte header for the rest of its
    24-byte header and then runs out of bytes inside a frame.  The frames
    alone, without the header, yield one pixel at a position nobody wrote.
    The canvases that result differ. *)
Theorem C1_written_recording_not_read_back :
  let cdw0 := newCanvasDiskWriter (mkPoint 256 256) scenarioPalette in
  let cdw := (cdw_record cdw0 scenarioEvents).1 in
  (cdw_record cdw0 scenarioEvents).2 = None /\
  flat_map (eventCalls scenarioPalette) scenarioEvents
  = [CallSetPixel (mkPoint 7 8) (mkRGBA 10 20 30 255);
     CallInvalidateRect (image_Rect 0 0 10 10);
     CallSignalDownload (image_Rect 0 0 2 1);
     CallSetImage (mkImage (image_Rect 0 0 2 1) [1; 2; 3; 255; 4; 5; 6; 255]) false true] /\
  replayRecording (ZipWriter cdw) = [] /\
  replayFrames (drop (length (ZipWriter cdw0)) (ZipWriter cdw))
  = [CallSetPixel (mkPoint 337515530 0) (mkRGBA 0 0 0 255)] /\
  EventChan (applyCalls demoCanvas (replayRecording (ZipWriter cdw)))
  <> EventChan (applyCalls demoCanvas
                  (flat_map (eventCalls scenarioPalette) scenarioEvents)).
Proof.
  cbn zeta. split_and!; [vm_compute; reflexivity ..|].
  vm_compute. discriminate.
Qed.

(** C2 at the smallest recording.  The header the writer emits has 16
    bytes, magic number, version, chunk width, chunk height and palette
    size, with no time between version and chunk width; the reader's
    24-byte header read fails on it.  A pixel frame of the writer has 12
    bytes, the data type followed at once by X, and the reader's frame read
    fails on it. *)
Theorem C2_writer_layout_has_no_time :
  (forall chunkSize palette, length (writerHeader chunkSize palette) = 16%nat) /\
  ZipWriter (newCanvasDiskWriter (mkPoint 256 256) [])
  = [80; 82; 69; 67; 1; 0; 0; 1; 0; 0; 0; 1; 0; 0; 0; 0] /\
  parseHeader (ZipWriter (newCanvasDiskWriter (mkPoint 256 256) [])) = Err ErrUnexpectedEOF /\
  cdw_handleSetPixel (mkWriter (mkPoint 256 256) scenarioPalette []) (mkPoint 7 8) 0
  = (mkWriter (mkPoint 256 256) scenarioPalette [10; 7; 0; 0; 0; 8; 0; 0; 0; 10; 20; 30],
     None) /\
  readEvent [10; 7; 0; 0; 0; 8; 0; 0; 0; 10; 20; 30] = Err ErrUnexpectedEOF /\
  readEvent (readerSetPixel 1000 7 8 10 20 30)
  = Ok (1000, [CallSetPixel (mkPoint 7 8) (mkRGBA 10 20 30 255)], []).
Proof.
  split_and!; [|vm_compute; reflexivity ..].
  intros chunkSize palette. unfold writerHeader, put_u32, put_u16.
  by rewrite !length_app, !le_put_length.
Qed.

(** ** The rectangle of a chunk *)

Lemma getChunk_creates can coord :
  Chunks can !! coord = None ->
  Chunks (getChunk can coord true).1 !! coord = Some (newChunk (getChunk_rect can coord)).
Proof.
  intros Hnone. unfold getChunk. rewrite Hnone. cbn. apply lookup_insert_eq.
Qed.

(** The rectangle [getChunk] and [getVirtualChunks] compute, when no
    product or difference leaves the range of [int]: both coordinates of its
    minimum corner are offset by the origin's X. *)
Lemma getChunk_rect_min can coord :
  is_int (X coord * X (ChunkSize can)) -> is_int (Y coord * Y (ChunkSize can)) ->
  is_int (X coord * X (ChunkSize can) - X (Origin can)) ->
  is_int (Y coord * Y (ChunkSize can) - X (Origin can)) ->
  Min (getChunk_rect can coord)
  = mkPoint (X coord * X (ChunkSize can) - X (Origin can))
            (Y coord * Y (ChunkSize can) - X (Origin can)) /\
  virtualChunkRect (ChunkSize can) (Origin can) coord = getChunk_rect can coord.
Proof.
  intros H1 H2 H3 H4. unfold getChunk_rect, virtualChunkRect, int_sub, int_mul. cbn [Min].
  by rewrite (int_wrap_id _ H1), (int_wrap_id _ H2), (int_wrap_id _ H3), (int_wrap_id _ H4).
Qed.

(** C3 on a canvas with chunks of 256 by 256 and origin (1, 2).  The chunk
    created at coordinate (0, 0) and the virtual chunk computed for it have
    the minimum corner (-1, -1): the Y coordinate is offset by the origin's
    X.  The rectangle of the specification has the minimum corner
    (-1, -2). *)
Theorem C3_chunk_rect_offsets_y_by_origin_x :
  let can := newCanvas (mkPoint 256 256) (mkPoint 1 2)
                       (image_Rect MinInt32 MinInt32 MaxInt32 MaxInt32) in
  C_Rect <$> (Chunks (getChunk can (mkPoint 0 0) true).1 !! mkPoint 0 0)
  = Some (mkRectangle (mkPoint (-1) (-1)) (mkPoint 255 255)) /\
  virtualChunkRect (ChunkSize can) (Origin can) (mkPoint 0 0)
  = mkRectangle (mkPoint (-1) (-1)) (mkPoint 255 255) /\
  mkRectangle (mkPoint (-1) (-1)) (mkPoint 255 255)
  <> mkRectangle (mkPoint (0 * 256 - 1) (0 * 256 - 2))
                 (mkPoint (0 * 256 - 1 + 256) (0 * 256 - 2 + 256)).
Proof.
  cbn zeta. split_and!.
  - rewrite getChunk_creates by done. vm_compute. reflexivity.
  - vm_compute. reflexivity.
  - discriminate.
Qed.

(** ** The replayer *)

Lemma read_bytes_le n s bs rest :
  read_bytes n s = Ok (bs, rest) -> (length rest <= length s)%nat.
Proof.
  unfold read_bytes. destruct (n =? 0); [by intros [= _ <-]|].
  destruct s as [|b s]; [done|].
  destruct (Z.of_nat (length (b :: s)) <? n); [done|].
  intros [= _ <-]. rewrite length_drop. lia.
Qed.

Lemma read_bytes_lt n s bs rest :
  0 < n -> read_bytes n s = Ok (bs, rest) -> (length rest < length s)%nat.
Proof.
  intros Hn. unfold read_bytes. destruct (Z.eqb_spec n 0); [lia|].
  destruct s as [|b s]; [done|].
  destruct (Z.of_nat (length (b :: s)) <? n); [done|].
  intros [= _ <-]. rewrite length_drop. cbn [length]. lia.
Qed.

Lemma read_rect_le s rect rest :
  read_rect s = Ok (rect, rest) -> (length rest <= length s)%nat.
Proof.
  unfold read_rect. destruct (read_bytes 16 s) as [[d r]|e] eqn:H; [|done].
  intros [= _ <-]. by apply read_bytes_le in H.
Qed.

(** Every frame read takes bytes off the stream. *)
Lemma readEvent_shorter s t cs rest :
  readEvent s = Ok (t, cs, rest) -> (length rest < length s)%nat.
Proof.
  unfold readEvent, read_unsigned, read_signed.
  destruct (read_bytes 1 s) as [[b1 s1]|e] eqn:H1; [|done].
  apply read_bytes_lt in H1; [|lia].
  destruct (read_bytes 8 s1) as [[b2 s2]|e] eqn:H2; [|done].
  apply read_bytes_le in H2.
  repeat match goal with |- context [if ?c then _ else _] => destruct c end.
  - destruct (read_bytes 11 s2) as [[d r]|e] eqn:H3; [|done].
    apply read_bytes_le in H3. intros [= _ _ <-]. lia.
  - destruct (read_rect s2) as [[d r]|e] eqn:H3; [|done].
    apply read_rect_le in H3. intros [= _ _ <-]. lia.
  - intros [= _ _ <-]. lia.
  - destruct (read_rect s2) as [[d r]|e] eqn:H3; [|done].
    apply read_rect_le in H3. intros [= _ _ <-]. lia.
  - destruct (read_bytes 16 s2) as [[d s3]|e] eqn:H3; [|done].
    apply read_bytes_le in H3.
    destruct (read_bytes _ s3) as [[imageData r]|e] eqn:H4; [|done].
    apply read_bytes_le in H4.
    destruct (rgbArrayToImage _ _); [|done]. intros [= _ _ <-]. lia.
  - intros [= _ _ <-]. lia.
Qed.

Lemma readLoop_enough turns : forall s recTime curTime calls,
  (length s < turns)%nat -> readLoop turns s recTime curTime calls <> OutOfTurns.
Proof.
  induction turns as [|turns IH]; intros s recTime curTime calls Hlen; [lia|].
  cbn [readLoop]. destruct (negb (recTime <? curTime)); [done|].
  destruct (readEvent s) as [[[t cs] rest]|e] eqn:Hread; [|done].
  apply readEvent_shorter in Hread. apply IH. lia.
Qed.

(** The read loop always comes to an end: it catches up or a read fails. *)
Lemma readUntil_total s recTime curTime : readUntil s recTime curTime <> OutOfTurns.
Proof. unfold readUntil. apply readLoop_enough. lia. Qed.

(** A demand earlier than [curTime], received inside a recording: the file
    is left (which invalidates the canvas) and the file loop starts again
    at the first file; the demand itself is dropped, [curTime] stays. *)
Lemma replayer_demand_earlier files r rest stream recTime t :
  pos r = InFile rest stream recTime ->
  t < curTime r ->
  replayer_demand files r t
  = (mkReplayer (curTime r) (openNext files), [CallInvalidateAll]).
Proof.
  intros Hpos Hlt. unfold replayer_demand. rewrite Hpos.
  by destruct (Z.ltb_spec t (curTime r)); [|lia].
Qed.

(** C7 on a recording of two files with pixels at the times 110, 120 and
    210, 220.  After the demands 115, 215 and 216 the replayer is in the
    second file with [curTime] 216.  The earlier demand 156 makes it
    invalidate the canvas and reopen the first file, and that is all: it
    keeps [curTime] 216, applies no event (the recording time stays at the
    first file's start, 100) and waits.  Every further demand below 216 is
    answered the same way. *)
Theorem C7_seek_back_replays_nothing :
  let r := (replayer_run seekFiles (replayer_start seekFiles 100) [115; 215; 216]).1 in
  let frames1 := readerSetPixel 110 1 1 10 20 30 ++ readerSetPixel 120 2 2 10 20 30 in
  r = mkReplayer 216 (InFile [] [] 220) /\
  replayer_demand seekFiles r 156
  = (mkReplayer 216 (InFile [seekFile2] frames1 100), [CallInvalidateAll]) /\
  replayer_run seekFiles r [156; 157; 158]
  = (mkReplayer 216 (InFile [seekFile2] frames1 100),
     [CallInvalidateAll; CallInvalidateAll; CallInvalidateAll]) /\
  replayer_run seekFiles r [156; 216]
  = (mkReplayer 216 (openNext [seekFile2]),
     [CallInvalidateAll;
      CallSetPixel (mkPoint 1 1) (mkRGBA 10 20 30 255);
      CallSetPixel (mkPoint 2 2) (mkRGBA 10 20 30 255);
      CallInvalidateAll]).
Proof. cbn zeta. split_and!; vm_compute; reflexivity. Qed.

(** * Further properties of the canvas *)

(** ** The chunk coordinates of a rectangle *)

Lemma elem_of_zrange z lo hi : z ∈ zrange lo hi <-> lo <= z < hi.
Proof.
  unfold zrange. rewrite list_elem_of_In, in_map_iff. split.
  - intros (i & <- & Hi). apply in_seq in Hi. lia.
  - intros Hz. exists (Z.to_nat (z - lo)). split; [lia|]. apply in_seq. lia.
Qed.

Lemma NoDup_zrange lo hi : NoDup (zrange lo hi).
Proof.
  unfold zrange. apply NoDup_ListNoDup.
  apply Finite.Injective_map_NoDup; [|apply List.seq_NoDup].
  intros i j Hij. lia.
Qed.

Lemma elem_of_chunkCoords c r :
  c ∈ chunkCoords r <->
  X (Min r) <= X c < X (Max r) /\ Y (Min r) <= Y c < Y (Max r).
Proof.
  unfold chunkCoords. rewrite list_elem_of_In, in_flat_map. split.
  - intros (iy & Hy & Hc). apply in_map_iff in Hc as (ix & <- & Hx).
    rewrite <- list_elem_of_In, elem_of_zrange in Hy, Hx. done.
  - intros [Hx Hy]. exists (Y c). rewrite <- list_elem_of_In, elem_of_zrange.
    split; [done|]. apply in_map_iff. exists (X c).
    rewrite <- list_elem_of_In, elem_of_zrange. by destruct c.
Qed.

Lemma NoDup_chunkCoords r : NoDup (chunkCoords r).
Proof.
  unfold chunkCoords.
  generalize (NoDup_zrange (Y (Min r)) (Y (Max r))).
  generalize (zrange (Y (Min r)) (Y (Max r))) as ys.
  induction ys as [|y ys IH]; intros Hnd; cbn [flat_map]; [constructor|].
  apply NoDup_cons in Hnd as [Hy Hnd]. apply NoDup_app. split_and!.
  - apply NoDup_ListNoDup.
    apply Finite.Injective_map_NoDup; [|apply NoDup_ListNoDup, NoDup_zrange].
    by intros a b [= ->].
  - intros c Hc Hc'. rewrite list_elem_of_In in Hc. apply in_map_iff in Hc as (x & <- & _).
    rewrite list_elem_of_In, in_flat_map in Hc'.
    destruct Hc' as (y' & Hy' & Hc'). apply in_map_iff in Hc' as (x' & [= _ ->] & _).
    by rewrite <- list_elem_of_In in Hy'.
  - by apply IH.
Qed.

(** ** [getChunk] and [getChunks] *)

Lemma getChunk_only_chunks can coord create :
  (getChunk can coord create).1
  = with_Chunks can (Chunks (getChunk can coord create).1).
Proof.
  unfold getChunk. destruct (Chunks can !! coord); [by destruct can|].
  destruct create; [done | by destruct can].
Qed.

(** The chunk map is a store keyed by chunk coordinate: a lookup that may
    not create changes nothing and fails exactly on a missing coordinate; a
    lookup that may create always succeeds, leaves an existing chunk and
    every other coordinate as they were, and is found again afterwards. *)
Theorem getChunk_store (can : canvas) (coord : chunkCoordinate) :
  getChunk can coord false
  = (can, match Chunks can !! coord with
          | Some _ => Ok coord
          | None => Err ErrNotFound
          end) /\
  (getChunk can coord true).2 = Ok coord /\
  is_Some (Chunks (getChunk can coord true).1 !! coord) /\
  (forall ch, Chunks can !! coord = Some ch -> getChunk can coord true = (can, Ok coord)) /\
  (forall c, c <> coord ->
     Chunks (getChunk can coord true).1 !! c = Chunks can !! c) /\
  getChunk (getChunk can coord true).1 coord false
  = ((getChunk can coord true).1, Ok coord) /\
  getChunk (getChunk can coord true).1 coord true
  = ((getChunk can coord true).1, Ok coord).
Proof.
  assert (is_Some (Chunks (getChunk can coord true).1 !! coord)) as Hsome.
  { unfold getChunk. destruct (Chunks can !! coord) as [ch|] eqn:Hc; cbn.
    - by rewrite Hc.
    - rewrite lookup_insert_eq. by eexists. }
  split_and!.
  - unfold getChunk. by destruct (Chunks can !! coord).
  - unfold getChunk. by destruct (Chunks can !! coord).
  - done.
  - intros ch Hc. unfold getChunk. by rewrite Hc.
  - intros c Hne. unfold getChunk. destruct (Chunks can !! coord); [done|].
    cbn. by rewrite lookup_insert_ne.
  - destruct Hsome as [ch Hch]. unfold getChunk at 1. by rewrite Hch.
  - destruct Hsome as [ch Hch]. unfold getChunk at 1. by rewrite Hch.
Qed.

Lemma getChunks_loop_ignore coords : forall can acc,
  getChunks_loop can coords false true acc
  = (can, Ok (acc ++ filter (fun c => is_Some (Chunks can !! c)) coords)).
Proof.
  induction coords as [|coord coords IH]; intros can acc.
  - cbn. by rewrite app_nil_r.
  - cbn [getChunks_loop]. unfold getChunk. rewrite filter_cons.
    destruct (Chunks can !! coord) as [ch|] eqn:Hc; cbn [negb].
    + rewrite IH. rewrite decide_True by by eexists. by rewrite <- app_assoc.
    + rewrite IH. rewrite decide_False; [done|]. by intros [? ?].
Qed.

Lemma getChunks_loop_strict coords : forall can acc,
  (Forall (fun c => is_Some (Chunks can !! c)) coords ->
   getChunks_loop can coords false false acc = (can, Ok (acc ++ coords))) /\
  (~ Forall (fun c => is_Some (Chunks can !! c)) coords ->
   getChunks_loop can coords false false acc = (can, Err ErrNotFound)).
Proof.
  induction coords as [|coord coords IH]; intros can acc.
  - cbn. rewrite app_nil_r. split; [done|]. intros H. by destruct H.
  - cbn [getChunks_loop]. unfold getChunk.
    destruct (Chunks can !! coord) as [ch|] eqn:Hc; cbn [negb].
    + destruct (IH can (acc ++ [coord])) as [IH1 IH2]. split.
      * intros Hall. apply Forall_cons in Hall as [_ Hall].
        rewrite IH1 by done. by rewrite <- app_assoc.
      * intros Hnot. apply IH2. intros Hall. apply Hnot.
        apply Forall_cons. split; [by eexists | done].
    + split; [|done]. intros Hall. apply Forall_cons in Hall as [[? Hs] _].
      congruence.
Qed.

Lemma getChunks_loop_create coords : forall can ignore acc,
  exists m',
    getChunks_loop can coords true ignore acc = (with_Chunks can m', Ok (acc ++ coords)) /\
    dom m' = dom (Chunks can) ∪ list_to_set coords /\
    (forall c ch, Chunks can !! c = Some ch -> m' !! c = Some ch) /\
    (forall c, Chunks can !! c = None -> c ∈ coords ->
       m' !! c = Some (newChunk (getChunk_rect can c))).
Proof.
  induction coords as [|coord coords IH]; intros can ignore acc.
  - exists (Chunks can). cbn. rewrite app_nil_r. split_and!.
    + by destruct can.
    + clear. set_solver.
    + done.
    + intros c _ Hc. by apply elem_of_nil in Hc.
  - cbn [getChunks_loop]. unfold getChunk.
    destruct (Chunks can !! coord) as [ch0|] eqn:Hc.
    + destruct (IH can ignore (acc ++ [coord])) as (m' & Hr & Hd & Hk & Hn).
      exists m'. rewrite Hr, <- app_assoc. split_and!; try done.
      * rewrite Hd. cbn [list_to_set]. apply elem_of_dom_2 in Hc. clear -Hc. set_solver.
      * intros c Hnone Hin. apply elem_of_cons in Hin as [->|Hin]; [congruence|].
        by apply Hn.
    + set (can1 := with_Chunks can (<[coord:=newChunk (getChunk_rect can coord)]> (Chunks can))).
      destruct (IH can1 ignore (acc ++ [coord])) as (m' & Hr & Hd & Hk & Hn).
      exists m'. rewrite Hr, <- app_assoc. split_and!; try done.
      * rewrite Hd. subst can1. cbn [Chunks with_Chunks list_to_set].
        rewrite dom_insert_L. clear. set_solver.
      * intros c ch Hch. apply Hk. subst can1. cbn [Chunks with_Chunks].
        rewrite lookup_insert_ne; [done | congruence].
      * intros c Hnone Hin. apply elem_of_cons in Hin as [->|Hin].
        -- apply Hk. subst can1. cbn [Chunks with_Chunks]. apply lookup_insert_eq.
        -- destruct (decide (c = coord)) as [->|Hne].
           ++ apply Hk. subst can1. cbn [Chunks with_Chunks]. apply lookup_insert_eq.
           ++ change (getChunk_rect can c) with (getChunk_rect can1 c).
              apply Hn; [|done]. subst can1. cbn [Chunks with_Chunks].
              by rewrite lookup_insert_ne.
Qed.

(** [getChunks] without creation leaves the canvas alone.  Told to ignore
    missing chunks it returns the coordinates of the rectangle that have a
    chunk, in the order of the loops; told not to, it returns them all when
    every one has a chunk and fails with the not-found error otherwise. *)
Theorem getChunks_lookup (can : canvas) (rect : chunkRectangle) :
  let coords := chunkCoords (Rect_Canon rect) in
  let present := fun c => is_Some (Chunks can !! c) in
  getChunks can rect false true = (can, Ok (filter present coords)) /\
  (Forall present coords -> getChunks can rect false false = (can, Ok coords)) /\
  (~ Forall present coords -> getChunks can rect false false = (can, Err ErrNotFound)).
Proof.
  cbn zeta. unfold getChunks. split.
  - apply (getChunks_loop_ignore _ can []).
  - apply (getChunks_loop_strict _ can []).
Qed.

(** [getChunks] with creation always succeeds and returns every coordinate
    of the rectangle; it changes nothing of the canvas but the chunk map,
    where the chunks that were there stay as they are and every missing
    coordinate of the rectangle gets a new chunk with the rectangle
    [getChunk] computes for it. *)
Theorem getChunks_create (can : canvas) (rect : chunkRectangle) (ignoreNonexistent : bool) :
  let coords := chunkCoords (Rect_Canon rect) in
  exists m',
    getChunks can rect true ignoreNonexistent = (with_Chunks can m', Ok coords) /\
    dom m' = dom (Chunks can) ∪ list_to_set coords /\
    (forall c ch, Chunks can !! c = Some ch -> m' !! c = Some ch) /\
    (forall c, Chunks can !! c = None -> c ∈ coords ->
       m' !! c = Some (newChunk (getChunk_rect can c))).
Proof.
  cbn zeta. unfold getChunks.
  apply (getChunks_loop_create (chunkCoords (Rect_Canon rect)) can ignoreNonexistent []).
Qed.

(** [isValid] answers true exactly when every chunk coordinate of the outer
    chunk rectangle has a chunk and that chunk is valid. *)
Theorem isValid_iff (can : canvas) (rect : Rectangle) :
  isValid can rect = true <->
  forall c, c ∈ chunkCoords (Rect_Canon (getOuterChunkRect (ChunkSize can) rect (Origin can))) ->
    exists ch, Chunks can !! c = Some ch /\ Valid ch = true.
Proof.
  unfold isValid, getChunks.
  set (coords := chunkCoords _).
  destruct (getChunks_loop_strict coords can []) as [Hall Hnot].
  destruct (decide (Forall (fun c => is_Some (Chunks can !! c)) coords)) as [HF|HF].
  - rewrite (Hall HF). cbn [app]. rewrite forallb_forall. split.
    + intros Hv c Hc. rewrite Forall_forall in HF. destruct (HF c Hc) as [ch Hch].
      exists ch. split; [done|]. rewrite list_elem_of_In in Hc.
      specialize (Hv c Hc). by rewrite Hch in Hv.
    + intros Hv c Hc. rewrite <- list_elem_of_In in Hc.
      destruct (Hv c Hc) as (ch & -> & Hvalid). done.
  - rewrite (Hnot HF). split; [done|]. intros Hv. exfalso. apply HF.
    apply Forall_forall. intros c Hc. destruct (Hv c Hc) as (ch & Hch & _). by eexists.
Qed.

(** ** Mutators and the chunk map *)

Lemma with_Chunks_id can : with_Chunks can (Chunks can) = can.
Proof. by destruct can. Qed.

Lemma updateChunks_lookup f coords : forall can,
  NoDup coords ->
  exists m',
    updateChunks f can coords = with_Chunks can m' /\
    forall c, m' !! c = if decide (c ∈ coords) then f <$> Chunks can !! c
                        else Chunks can !! c.
Proof.
  unfold updateChunks.
  induction coords as [|coord coords IH]; intros can Hnd.
  - exists (Chunks can). cbn [fold_left]. split; [by rewrite with_Chunks_id|].
    intros c. rewrite decide_False; [done | apply not_elem_of_nil].
  - apply NoDup_cons in Hnd as [Hnotin Hnd]. cbn [fold_left].
    destruct (IH (with_Chunks can (alter f coord (Chunks can))) Hnd) as (m' & Hr & Hl).
    exists m'. split; [by rewrite Hr|].
    intros c. rewrite Hl. cbn [Chunks with_Chunks].
    destruct (decide (c = coord)) as [->|Hne].
    + rewrite decide_False by done. rewrite decide_True by apply list_elem_of_here.
      apply lookup_alter_eq.
    + rewrite lookup_alter_ne by done.
      destruct (decide (c ∈ coords)) as [Hin|Hnin].
      * rewrite decide_True; [done | by apply list_elem_of_further].
      * rewrite decide_False; [done|]. intros Hc. apply elem_of_cons in Hc as [?|?]; done.
Qed.

Lemma dom_of_lookup (m m' : gmap Point chunk) :
  (forall c, is_Some (m' !! c) <-> is_Some (m !! c)) -> dom m' = dom m.
Proof.
  intros H. apply set_eq. intros c. by rewrite !elem_of_dom.
Qed.

(** What the mutators over a rectangle do to the chunks: the method [f] is
    applied to the chunk of every coordinate of the outer chunk rectangle
    that has one; nothing else changes and no chunk is made. *)
Lemma rect_update_chunks f can rect :
  exists m',
    (let '(can1, r) := getChunks can rect false true in
     match r with
     | Ok chunks => updateChunks f can1 chunks
     | Err _ => can1
     end) = with_Chunks can m' /\
    forall c, m' !! c = if decide (c ∈ chunkCoords (Rect_Canon rect))
                        then f <$> Chunks can !! c else Chunks can !! c.
Proof.
  unfold getChunks. rewrite (getChunks_loop_ignore _ can []). cbn [app].
  set (coords := chunkCoords (Rect_Canon rect)).
  destruct (updateChunks_lookup f
              (filter (fun c => is_Some (Chunks can !! c)) coords) can)
    as (m' & Hr & Hl).
  { apply NoDup_filter, NoDup_chunkCoords. }
  exists m'. split; [done|]. intros c. rewrite Hl.
  destruct (decide (c ∈ coords)) as [Hin|Hnin].
  - destruct (Chunks can !! c) as [ch|] eqn:Hc.
    + rewrite decide_True; [done|]. apply list_elem_of_filter. split; [by eexists | done].
    + by destruct (decide _).
  - rewrite decide_False; [done|]. intros Hc. apply list_elem_of_filter in Hc as [_ ?]. done.
Qed.







Lemma signalDownload_loop_spec chunks : forall can downloading,
  exists m' started,
    signalDownload_loop can chunks downloading = (with_Chunks can m', downloading ++ started) /\
    dom m' = dom (Chunks can) /\
    (forall c, c ∈ started -> c ∈ chunks).
Proof.
  induction chunks as [|p chunks IH]; intros can downloading.
  - exists (Chunks can), []. cbn. rewrite app_nil_r, with_Chunks_id. split_and!; try done.
  - cbn [signalDownload_loop]. destruct (Chunks can !! p) as [ch|] eqn:Hp.
    + destruct (chunk_signalDownload ch) as [ch' b].
      destruct (IH (with_Chunks can (<[p:=ch']> (Chunks can)))
                   (if b then downloading ++ [p] else downloading))
        as (m' & started & Hr & Hd & Hs).
      exists m', (if b then p :: started else started). rewrite Hr. split_and!.
      * cbn [with_Chunks Chunks]. f_equal. destruct b; [by rewrite <- app_assoc | done].
      * rewrite Hd. cbn [Chunks with_Chunks]. apply dom_insert_lookup_L. by eexists.
      * intros c Hc. destruct b.
        -- apply elem_of_cons in Hc as [->|Hc]; [apply list_elem_of_here|].
           apply list_elem_of_further. by apply Hs.
        -- apply list_elem_of_further. by apply Hs.
    + destruct (IH can downloading) as (m' & started & Hr & Hd & Hs).
      exists m', started. split_and!; try done.
      intros c Hc. apply list_elem_of_further. by apply Hs.
Qed.

(** On an open canvas [signalDownload] never fails.  Afterwards every chunk
    coordinate of the outer chunk rectangle has a chunk, no other chunk has
    been made and none removed, the chunks returned are among those
    coordinates, and the event has been sent. *)
Theorem signalDownload_creates (can : canvas) (rect : Rectangle) :
  Closed can = false ->
  let coords :=
    chunkCoords (Rect_Canon (getOuterChunkRect (ChunkSize can) rect (Origin can))) in
  exists m' downloading,
    signalDownload can rect
    = (send (with_Chunks can m') (canvasEventSignalDownload rect), Ok downloading) /\
    dom m' = dom (Chunks can) ∪ list_to_set coords /\
    (forall c, c ∈ downloading -> c ∈ coords).
Proof.
  intros Hopen. cbn zeta. unfold signalDownload. rewrite Hopen. cbn zeta.
  destruct (getChunks_loop_create
              (chunkCoords (Rect_Canon (getOuterChunkRect (ChunkSize can) rect (Origin can))))
              can true []) as (m1 & Hg & Hd1 & _ & _).
  unfold getChunks. rewrite Hg. cbn [app].
  destruct (signalDownload_loop_spec
              (chunkCoords (Rect_Canon (getOuterChunkRect (ChunkSize can) rect (Origin can))))
              (with_Chunks can m1) []) as (m' & started & Hr & Hd & Hs).
  rewrite Hr. cbn [app fst snd with_Chunks Chunks] in *.
  exists m', started. split_and!; [done | congruence | done].
Qed.

Lemma signalDownload_creates_witness :
  let coords :=
    chunkCoords (Rect_Canon (getOuterChunkRect (ChunkSize demoCanvas)
                   (image_Rect 0 0 10 10) (Origin demoCanvas))) in
  exists m' downloading,
    signalDownload demoCanvas (image_Rect 0 0 10 10)
    = (send (with_Chunks demoCanvas m') (canvasEventSignalDownload (image_Rect 0 0 10 10)),
       Ok downloading) /\
    dom m' = dom (Chunks demoCanvas) ∪ list_to_set coords /\
    (forall c, c ∈ downloading -> c ∈ coords).
Proof.
  apply (signalDownload_creates demoCanvas (image_Rect 0 0 10 10)). reflexivity.
Defined.

Lemma setImage_loop_spec chunks img : forall can,
  exists m' events,
    setImage_loop can chunks img
    = mkCanvas (Closed can) (ChunkSize can) (Origin can) (Rect can) m' (Time can)
               (EventChan can ++ events) (EventChanClosed can) /\
    dom m' = dom (Chunks can) /\
    (length events <= length chunks)%nat /\
    Forall (fun e => match e with
                     | canvasEventSetImage _ | canvasEventRevalidate _ => True
                     | _ => False
                     end) events.
Proof.
  induction chunks as [|p chunks IH]; intros can.
  - exists (Chunks can), []. cbn. rewrite app_nil_r. split_and!; try done. by destruct can.
  - cbn [setImage_loop]. destruct (Chunks can !! p) as [ch|] eqn:Hp.
    + destruct (chunk_setImage ch img) as [ch' [resultImg|e]].
      * set (ev := match resultImg with
                   | Some i => canvasEventSetImage i
                   | None => canvasEventRevalidate (C_Rect ch')
                   end).
        destruct (IH (send (with_Chunks can (<[p:=ch']> (Chunks can))) ev))
          as (m' & events & Hr & Hd & Hlen & Hall).
        exists m', (ev :: events). split_and!.
        -- destruct resultImg; subst ev; rewrite Hr; cbn; by rewrite <- app_assoc.
        -- rewrite Hd. cbn. apply dom_insert_lookup_L. by eexists.
        -- cbn [length]. lia.
        -- apply Forall_cons. split; [|done]. subst ev. by destruct resultImg.
      * destruct (IH can) as (m' & events & Hr & Hd & Hlen & Hall).
        exists m', events. split_and!; try done. cbn [length]. lia.
    + destruct (IH can) as (m' & events & Hr & Hd & Hlen & Hall).
      exists m', events. split_and!; try done. cbn [length]. lia.
Qed.



Lemma getChunks_dom_mono can rect create ignore :
  dom (Chunks can) ⊆ dom (Chunks (getChunks can rect create ignore).1).
Proof.
  unfold getChunks. destruct create.
  - destruct (getChunks_loop_create (chunkCoords (Rect_Canon rect)) can ignore [])
      as (m' & Hr & Hd & _). rewrite Hr. cbn. rewrite Hd. clear. set_solver.
  - destruct (getChunks_loop_lookup (chunkCoords (Rect_Canon rect)) can can ignore []
                eq_refl) as [-> _]. done.
Qed.

Lemma dom_rect_update (m m' : gmap Point chunk) (f : chunk -> chunk) (coords : list Point) :
  (forall c, m' !! c = if decide (c ∈ coords) then f <$> m !! c else m !! c) ->
  dom m' = dom m.
Proof.
  intros Hl. apply dom_of_lookup. intros c. rewrite Hl.
  destruct (decide _); [|done]. by rewrite fmap_is_Some.
Qed.

Lemma applyCall_keeps_chunks can call :
  dom (Chunks can) ⊆ dom (Chunks (applyCall can call)).
Proof.
  destruct call as [pos col|rect| |rect|rect|img create ignore]; cbn [applyCall].
  - unfold setPixel, getChunk. destruct (Closed can); [done|]. cbn zeta.
    destruct (Chunks can !! _) as [ch|] eqn:Hc; [|done].
    rewrite Hc. destruct (chunk_setPixel ch pos col) as [ch' err]. cbn.
    rewrite dom_insert_lookup_L; [done | by eexists].
  - unfold invalidateRect. destruct (Closed can); [done|]. cbn zeta.
    destruct (rect_update_chunks chunk_invalidateImage can
                (getOuterChunkRect (ChunkSize can) rect (Origin can))) as (m' & Hr & Hl).
    destruct (getChunks can _ false true) as [can1 [chunks|e]]; cbn [fst snd];
      rewrite Hr; cbn; by rewrite (dom_rect_update _ _ _ _ Hl).
  - unfold invalidateAll. destruct (Closed can); [done|]. cbn [fst].
    destruct (updateChunks_lookup chunk_invalidateImage (getAllChunks can) can
                (NoDup_fst_map_to_list _)) as (m' & Hr & Hl).
    rewrite Hr. cbn. by rewrite (dom_rect_update _ _ _ _ Hl).
  - unfold revalidateRect. destruct (Closed can); [done|]. cbn zeta.
    destruct (rect_update_chunks chunk_revalidate can
                (getOuterChunkRect (ChunkSize can) rect (Origin can))) as (m' & Hr & Hl).
    destruct (getChunks can _ false true) as [can1 [chunks|e]]; cbn [fst snd];
      rewrite Hr; cbn; by rewrite (dom_rect_update _ _ _ _ Hl).
  - unfold signalDownload. destruct (Closed can); [done|]. cbn zeta.
    pose proof (getChunks_dom_mono can
                  (getOuterChunkRect (ChunkSize can) rect (Origin can)) true true) as Hm.
    destruct (getChunks can _ true true) as [can1 [chunks|e]]; cbn [fst snd] in *; [|done].
    destruct (signalDownload_loop_spec chunks can1 []) as (m' & started & Hr & Hd & _).
    rewrite Hr. cbn. by rewrite Hd.
  - unfold setImage. destruct (Closed can); [done|].
    pose proof (getChunks_dom_mono can
                  (getInnerChunkRect (ChunkSize can) (Bounds img) (Origin can))
                  create ignore) as Hm.
    destruct (getChunks can _ create ignore) as [can1 [chunks|e]]; cbn [fst snd] in *; [|done].
    unfold copyImage.
    destruct (setImage_loop_spec chunks img can1) as (m' & events & Hr & Hd & _).
    rewrite Hr. cbn. by rewrite Hd.
Qed.

(** No mutator removes a chunk: after any sequence of [setPixel],
    [invalidateRect], [invalidateAll], [revalidateRect], [signalDownload]
    and [setImage] calls, as the replayer makes them, every chunk
    coordinate that had a chunk still has one. *)
Theorem applyCalls_keep_chunks (can : canvas) (calls : list canvasCall) :
  dom (Chunks can) ⊆ dom (Chunks (applyCalls can calls)).
Proof.
  unfold applyCalls. revert can.
  induction calls as [|call calls IH]; intros can; [done|].
  cbn [fold_left]. etransitivity; [apply applyCall_keeps_chunks | apply IH].
Qed.




(** [setTime] then [getTime] on an open canvas gives the time back; the
    chunks are not touched and one [canvasEventSetTime] is sent. *)
Theorem setTime_getTime (can : canvas) (t : Z) :
  Closed can = false ->
  (setTime can t).2 = None /\
  getTime (setTime can t).1 = Ok t /\
  Chunks (setTime can t).1 = Chunks can /\
  EventChan (setTime can t).1 = EventChan can ++ [canvasEventSetTime t].
Proof.
  intros Hopen. unfold setTime, getTime. rewrite Hopen. cbn. by rewrite Hopen.
Qed.

Lemma setTime_getTime_witness :
  (setTime demoCanvas 1546300800).2 = None /\
  getTime (setTime demoCanvas 1546300800).1 = Ok 1546300800 /\
  Chunks (setTime demoCanvas 1546300800).1 = Chunks demoCanvas /\
  EventChan (setTime demoCanvas 1546300800).1
  = EventChan demoCanvas ++ [canvasEventSetTime 1546300800].
Proof. apply (setTime_getTime demoCanvas 1546300800). reflexivity. Defined.

(** * Further properties of the broadcaster *)

Section VirtualChunkLookup.

Variables (size : pixelSize) (origin : Point).

Lemma tiles_lookup_only coords : forall st m,
  let r := fold_left (getVirtualChunks_tile size origin false) coords (m, st) in
  r.2 = st /\
  forall k, r.1 !! k
            = if decide (k ∈ map (virtualChunkRect size origin) coords)
              then match VirtualChunks st !! k with
                   | Some id => Some id
                   | None => m !! k
                   end
              else m !! k.
Proof.
  induction coords as [|coord coords IH]; intros st m.
  - cbn. split; [done|]. intros k. rewrite decide_False; [done | apply not_elem_of_nil].
  - cbn [fold_left map].
    set (vc := virtualChunkRect size origin coord).
    set (m1 := match VirtualChunks st !! vc with
               | Some id => <[vc:=id]> m
               | None => m
               end).
    assert (getVirtualChunks_tile size origin false (m, st) coord = (m1, st)) as ->.
    { unfold getVirtualChunks_tile. fold vc. subst m1.
      by destruct (VirtualChunks st !! vc). }
    destruct (IH st m1) as [Hst Hl]. cbn zeta in *. split; [done|].
    intros k. rewrite Hl. destruct (decide (k = vc)) as [->|Hne].
    + rewrite (decide_True (P := vc ∈ vc :: _)) by apply list_elem_of_here.
      subst m1. destruct (VirtualChunks st !! vc) as [vcID|] eqn:Hvc.
      * rewrite lookup_insert_eq. by destruct (decide _).
      * by destruct (decide _).
    + assert (m1 !! k = m !! k) as ->.
      { subst m1. destruct (VirtualChunks st !! vc); [|done]. by rewrite lookup_insert_ne. }
      destruct (decide (k ∈ map _ coords)) as [Hin|Hnin].
      * rewrite decide_True; [done | by apply list_elem_of_further].
      * rewrite decide_False; [done|]. intros Hc.
        apply elem_of_cons in Hc as [?|?]; done.
Qed.

Lemma tilesOf_single rect :
  tilesOf size origin [rect]
  = map (virtualChunkRect size origin) (chunkCoords (getOuterChunkRect size rect origin)).
Proof. unfold tilesOf. cbn [flat_map]. apply app_nil_r. Qed.

Lemma getVirtualChunks_false st rect :
  (getVirtualChunks size origin st rect false).2 = st /\
  forall k, (getVirtualChunks size origin st rect false).1 !! k
            = if decide (k ∈ tilesOf size origin [rect]) then VirtualChunks st !! k
              else None.
Proof.
  unfold getVirtualChunks. rewrite tilesOf_single.
  destruct (tiles_lookup_only (chunkCoords (getOuterChunkRect size rect origin)) st ∅)
    as [Hst Hl].
  cbn zeta in *. split; [done|]. intros k. rewrite Hl, lookup_empty.
  destruct (decide _); [|done]. by destruct (VirtualChunks st !! k).
Qed.

End VirtualChunkLookup.

(** Looking up the virtual chunks of a rectangle for the delivery of an
    event ([createNew] false) leaves the listener state as it is and
    returns exactly the listener's virtual chunks whose tile is one of the
    tiles of the rectangle, with their ids. *)
Theorem getVirtualChunks_lookup (size : pixelSize) (origin : Point)
    (st : canvasListenerState) (rect : Rectangle) :
  (getVirtualChunks size origin st rect false).2 = st /\
  forall k id,
    (getVirtualChunks size origin st rect false).1 !! k = Some id <->
    k ∈ tilesOf size origin [rect] /\ VirtualChunks st !! k = Some id.
Proof.
  destruct (getVirtualChunks_false size origin st rect) as [Hst Hl].
  split; [done|]. intros k id. rewrite Hl. destruct (decide _); naive_solver.
Qed.

Lemma vcsSlice_elem (vcs : gmap Rectangle Z) id :
  id ∈ vcsSlice vcs <-> exists k, vcs !! k = Some id.
Proof.
  unfold vcsSlice. rewrite list_elem_of_fmap. split.
  - intros ([k i] & -> & Hin). exists k. by apply elem_of_map_to_list.
  - intros (k & Hk). exists (k, id). split; [done|]. by apply elem_of_map_to_list.
Qed.

(** Delivery of an event that carries a rectangle ([canvasEventSetImage],
    [canvasEventInvalidateRect], [canvasEventRevalidate],
    [canvasEventSignalDownload]) to one listener.  A listener without
    virtual chunks is called once, with no ids.  A listener with virtual
    chunks is not called when it holds none of the tiles of the rectangle,
    and is otherwise called once with exactly the ids of the tiles of the
    rectangle it holds. *)
Theorem deliverRect_by_viewport (can : canvas) (rect : Rectangle)
    (cb : canvasListener -> list Z -> callback) (l : canvasListener)
    (st : canvasListenerState) :
  let tiles := tilesOf (ChunkSize can) (Origin can) [rect] in
  (UseVirtualChunks st = false -> deliverRect can rect cb (l, st) = [cb l []]) /\
  (UseVirtualChunks st = true ->
   (forall k, k ∈ tiles -> VirtualChunks st !! k = None) ->
   deliverRect can rect cb (l, st) = []) /\
  (UseVirtualChunks st = true ->
   (exists k, k ∈ tiles /\ is_Some (VirtualChunks st !! k)) ->
   exists ids,
     deliverRect can rect cb (l, st) = [cb l ids] /\
     forall id, id ∈ ids <-> exists k, k ∈ tiles /\ VirtualChunks st !! k = Some id).
Proof.
  cbn zeta. unfold deliverRect.
  destruct (getVirtualChunks_false (ChunkSize can) (Origin can) st rect) as [_ Hl].
  set (vcs := (getVirtualChunks (ChunkSize can) (Origin can) st rect false).1) in *.
  split_and!.
  - by intros ->.
  - intros -> Hnone. cbn [negb]. rewrite bool_decide_eq_true_2; [done|].
    apply map_eq. intros k. rewrite Hl, lookup_empty.
    destruct (decide _) as [Hin|]; [by apply Hnone | done].
  - intros -> (k & Hin & [id Hid]). cbn [negb]. rewrite bool_decide_eq_false_2.
    + exists (vcsSlice vcs). split; [done|]. intros i. rewrite vcsSlice_elem.
      split.
      * intros (k' & Hk'). rewrite Hl in Hk'. destruct (decide _); [|done]. by exists k'.
      * intros (k' & Hin' & Hk'). exists k'. rewrite Hl. by rewrite decide_True.
    + intros Hempty. assert (vcs !! k = Some id) as Hk.
      { rewrite Hl. by rewrite decide_True. }
      rewrite Hempty, lookup_empty in Hk. done.
Qed.

(** Delivery of [canvasEventSetPixel] to one listener.  A listener without
    virtual chunks is called with the id 0.  A listener with virtual chunks
    is not called when it holds no tile of the pixel's one-by-one
    rectangle, and is otherwise called once with the id of such a tile it
    holds. *)
Theorem deliverPixel_by_viewport (can : canvas) (pos : Point) (col : RGBA)
    (l : canvasListener) (st : canvasListenerState) :
  let tiles := tilesOf (ChunkSize can) (Origin can)
                 [mkRectangle pos (Point_Add pos (mkPoint 1 1))] in
  (UseVirtualChunks st = false ->
   deliverPixel can pos col (l, st) = [handleSetPixel l pos col 0]) /\
  (UseVirtualChunks st = true ->
   (forall k, k ∈ tiles -> VirtualChunks st !! k = None) ->
   deliverPixel can pos col (l, st) = []) /\
  (UseVirtualChunks st = true ->
   (exists k, k ∈ tiles /\ is_Some (VirtualChunks st !! k)) ->
   exists k id,
     k ∈ tiles /\ VirtualChunks st !! k = Some id /\
     deliverPixel can pos col (l, st) = [handleSetPixel l pos col id]).
Proof.
  cbn zeta. unfold deliverPixel.
  destruct (getVirtualChunks_false (ChunkSize can) (Origin can) st
              (mkRectangle pos (Point_Add pos (mkPoint 1 1)))) as [_ Hl].
  set (vcs := (getVirtualChunks (ChunkSize can) (Origin can) st _ false).1) in *.
  split_and!.
  - by intros ->.
  - intros -> Hnone. cbn [negb].
    assert (vcs = ∅) as ->.
    { apply map_eq. intros k. rewrite Hl, lookup_empty.
      destruct (decide _) as [Hin|]; [by apply Hnone | done]. }
    unfold vcsSlice. by rewrite map_to_list_empty.
  - intros -> (k & Hin & [id Hid]). cbn [negb].
    destruct (vcsSlice vcs) as [|vc rest] eqn:Hs.
    + assert (id ∈ vcsSlice vcs) as Hid'.
      { apply vcsSlice_elem. exists k. rewrite Hl. by rewrite decide_True. }
      rewrite Hs in Hid'. by apply elem_of_nil in Hid'.
    + assert (vc ∈ vcsSlice vcs) as Hvc by (rewrite Hs; apply list_elem_of_here).
      apply vcsSlice_elem in Hvc as (k' & Hk'). rewrite Hl in Hk'.
      destruct (decide (k' ∈ _)); [|done]. by exists k', vc.
Qed.

Section VirtualChunkDelta.

Variables (size : pixelSize) (origin : Point).

Lemma tiles_known_ids coords : forall st m,
  let r := fold_left (getVirtualChunks_tile size origin true) coords (m, st) in
  let tiles := map (virtualChunkRect size origin) coords in
  (forall k, k ∉ tiles -> r.1 !! k = m !! k) /\
  (forall k id, VirtualChunks st !! k = Some id -> k ∈ tiles -> r.1 !! k = Some id) /\
  ((forall k, k ∈ tiles -> is_Some (VirtualChunks st !! k)) -> r.2 = st).
Proof.
  induction coords as [|coord coords IH]; intros st m.
  - cbn. split_and!; try done. intros k id _ Hk. by apply elem_of_nil in Hk.
  - cbn [fold_left map].
    set (vc := virtualChunkRect size origin coord).
    pose proof (tile_shape size origin st m coord) as [(HV & _ & _) _]. cbn zeta in HV.
    assert (forall k, k <> vc ->
              (getVirtualChunks_tile size origin true (m, st) coord).1 !! k = m !! k) as Hne.
    { intros k Hk. unfold getVirtualChunks_tile. fold vc.
      destruct (VirtualChunks st !! vc); cbn; by rewrite lookup_insert_ne. }
    assert (forall id, VirtualChunks st !! vc = Some id ->
              getVirtualChunks_tile size origin true (m, st) coord = (<[vc:=id]> m, st)) as Heq.
    { intros id Hid. unfold getVirtualChunks_tile. fold vc. by rewrite Hid. }
    destruct (getVirtualChunks_tile size origin true (m, st) coord) as [m1 st1].
    cbn [fst snd] in *.
    destruct (IH st1 m1) as (Ha & Hb & Hc). cbn zeta in *. split_and!.
    + intros k Hk. rewrite Ha, Hne; [done | |].
      * intros ->. apply Hk, list_elem_of_here.
      * intros Hin. by apply Hk, list_elem_of_further.
    + intros k id Hid Hk.
      destruct (decide (k ∈ map (virtualChunkRect size origin) coords)) as [Hin|Hnin].
      * apply Hb; [congruence | done].
      * apply elem_of_cons in Hk as [->|Hk]; [|done].
        rewrite Ha by done. specialize (Heq id Hid). injection Heq as -> _.
        apply lookup_insert_eq.
    + intros Hall. destruct (Hall vc (list_elem_of_here _ _)) as [id Hid].
      specialize (Heq id Hid). injection Heq as -> ->.
      apply Hc. intros k Hk. by apply Hall, list_elem_of_further.
Qed.

Lemma needed_known_ids rects : forall st needed,
  let r := fold_left (neededChunks_rect size origin) rects (needed, st) in
  (forall k, k ∉ tilesOf size origin rects -> r.1 !! k = needed !! k) /\
  (forall k id, VirtualChunks st !! k = Some id -> k ∈ tilesOf size origin rects ->
                r.1 !! k = Some id) /\
  ((forall k, k ∈ tilesOf size origin rects -> is_Some (VirtualChunks st !! k)) ->
   r.2 = st).
Proof.
  induction rects as [|rect rects IH]; intros st needed.
  - cbn. split_and!; try done. intros k id _ Hk. by apply elem_of_nil in Hk.
  - pose proof (tiles_known_ids (chunkCoords (getOuterChunkRect size rect origin)) st ∅)
      as (Ta & Tb & Tc).
    pose proof (tiles_shape size origin
                  (chunkCoords (getOuterChunkRect size rect origin)) st ∅)
      as [(HV & _ & _) _].
    cbn zeta in *. fold (getVirtualChunks size origin st rect true) in *.
    destruct (getVirtualChunks size origin st rect true) as [temp st1] eqn:Hg.
    cbn [fst snd] in *.
    assert (fold_left (neededChunks_rect size origin) (rect :: rects) (needed, st)
            = fold_left (neededChunks_rect size origin) rects (temp ∪ needed, st1)) as ->.
    { cbn [fold_left]. unfold neededChunks_rect at 2. by rewrite Hg. }
    destruct (IH st1 (temp ∪ needed)) as (Ha & Hb & Hc).
    assert (forall k, k ∈ tilesOf size origin (rect :: rects) <->
              k ∈ map (virtualChunkRect size origin)
                      (chunkCoords (getOuterChunkRect size rect origin)) \/
              k ∈ tilesOf size origin rects) as Hsplit.
    { intros k. unfold tilesOf. cbn [flat_map]. apply elem_of_app. }
    split_and!.
    + intros k Hk. rewrite Ha by (intros ?; apply Hk, Hsplit; by right).
      rewrite lookup_union_r; [done|].
      rewrite Ta by (intros ?; apply Hk, Hsplit; by left). apply lookup_empty.
    + intros k id Hid Hk.
      destruct (decide (k ∈ tilesOf size origin rects)) as [Hin|Hnin].
      * apply Hb; [congruence | done].
      * apply Hsplit in Hk as [Hk|Hk]; [|done].
        rewrite Ha by done. apply lookup_union_Some_l. by apply Tb.
    + intros Hall.
      assert (st1 = st) as ->.
      { apply Tc. intros k Hk. apply Hall, Hsplit. by left. }
      apply Hc. intros k Hk. apply Hall, Hsplit. by right.
Qed.

Lemma updateVirtualChunks_parts st rects :
  exists needed counter,
    updateVirtualChunks size origin st rects
    = (mkListenerState rects needed counter (UseVirtualChunks st),
       filter (fun kv => VirtualChunks st !! kv.1 = None) needed,
       filter (fun kv => needed !! kv.1 = None) (VirtualChunks st)) /\
    (forall k, k ∉ tilesOf size origin rects -> needed !! k = None) /\
    (forall k id, VirtualChunks st !! k = Some id -> k ∈ tilesOf size origin rects ->
                  needed !! k = Some id) /\
    ((forall k, k ∈ tilesOf size origin rects -> is_Some (VirtualChunks st !! k)) ->
     counter = VirtualChunkIDCounter st).
Proof.
  unfold updateVirtualChunks.
  set (st1 := mkListenerState rects _ _ _).
  pose proof (needed_known_ids rects st1 ∅) as (Ha & Hb & Hc).
  pose proof (neededChunks_shape size origin rects st1 ∅) as [(HV & HR & HU) _].
  cbn zeta in *.
  destruct (fold_left (neededChunks_rect size origin) rects (∅, st1)) as [needed st2].
  cbn [fst snd] in *. subst st1. cbn [VirtualChunks Rects UseVirtualChunks] in *.
  exists needed, (VirtualChunkIDCounter st2). rewrite HV, HR, HU. split_and!.
  - done.
  - intros k Hk. rewrite Ha by done. apply lookup_empty.
  - done.
  - intros Hall. by rewrite (Hc Hall).
Qed.

End VirtualChunkDelta.

(** What a viewport update tells the listener is what happened to the
    state: the new virtual chunks are the old ones without the removed
    ones, plus the created ones.  A created tile was not held before; a
    removed tile was held with the id reported and is not held after. *)
Theorem updateVirtualChunks_delta (size : pixelSize) (origin : Point)
    (st : canvasListenerState) (rects : list Rectangle) :
  let r := updateVirtualChunks size origin st rects in
  let st' := r.1.1 in
  let createChunks := r.1.2 in
  let removeChunks := r.2 in
  (forall k,
     VirtualChunks st' !! k
     = match createChunks !! k with
       | Some id => Some id
       | None => match removeChunks !! k with
                 | Some _ => None
                 | None => VirtualChunks st !! k
                 end
       end) /\
  (forall k id, createChunks !! k = Some id -> VirtualChunks st !! k = None) /\
  (forall k id, removeChunks !! k = Some id ->
                VirtualChunks st !! k = Some id /\ VirtualChunks st' !! k = None).
Proof.
  destruct (updateVirtualChunks_parts size origin st rects)
    as (needed & counter & -> & Hout & Hknown & _).
  cbn zeta. cbn [fst snd VirtualChunks]. split_and!.
  - intros k.
    destruct (filter _ needed !! k) as [id|] eqn:Hc.
    + by apply map_lookup_filter_Some in Hc as [-> _].
    + destruct (filter _ (VirtualChunks st) !! k) as [v|] eqn:Hr.
      * by apply map_lookup_filter_Some in Hr as [_ Hr].
      * apply map_lookup_filter_None in Hc, Hr.
        destruct (needed !! k) as [id|] eqn:Hn.
        -- destruct Hc as [?|Hc]; [done|]. specialize (Hc id eq_refl). cbn in Hc.
           destruct (VirtualChunks st !! k) as [id'|] eqn:Hv; [|done].
           destruct (decide (k ∈ tilesOf size origin rects)) as [Hin|Hnin].
           ++ rewrite (Hknown k id' Hv Hin) in Hn. done.
           ++ rewrite (Hout k Hnin) in Hn. done.
        -- destruct Hr as [Hr|Hr]; [done|].
           destruct (VirtualChunks st !! k) as [id'|] eqn:Hv; [|done].
           specialize (Hr id' eq_refl). cbn in Hr. done.
  - intros k id Hc. by apply map_lookup_filter_Some in Hc as [_ Hc].
  - intros k id Hr. by apply map_lookup_filter_Some in Hr as [Hv Hr].
Qed.

Lemma updateVirtualChunks_again size origin st rects :
  let st1 := (updateVirtualChunks size origin st rects).1.1 in
  updateVirtualChunks size origin st1 rects = (st1, ∅, ∅).
Proof.
  cbn zeta.
  destruct (updateVirtualChunks_shape size origin st rects) as (HR & _ & Hd). cbn zeta in *.
  set (st1 := (updateVirtualChunks size origin st rects).1.1) in *.
  destruct (updateVirtualChunks_parts size origin st1 rects)
    as (needed & counter & -> & Hout & Hknown & Hcount).
  assert (forall k, k ∈ tilesOf size origin rects <-> is_Some (VirtualChunks st1 !! k)) as Hin.
  { intros k. by rewrite <- elem_of_dom, Hd, elem_of_list_to_set. }
  assert (needed = VirtualChunks st1) as ->.
  { apply map_eq. intros k. destruct (VirtualChunks st1 !! k) as [id|] eqn:Hv.
    - apply Hknown; [done|]. apply Hin. by eexists.
    - apply Hout. intros Hk. apply Hin in Hk as [? ?]. congruence. }
  rewrite Hcount by (intros k Hk; by apply Hin).
  f_equal; [f_equal|].
  - destruct st1. cbn in *. by subst.
  - apply map_empty. intros k. apply map_lookup_filter_None.
    destruct (VirtualChunks st1 !! k) eqn:Hv; [right | by left].
    intros x Hx. cbn. congruence.
  - apply map_empty. intros k. apply map_lookup_filter_None.
    destruct (VirtualChunks st1 !! k) eqn:Hv; [right | by left].
    intros x Hx. cbn. congruence.
Qed.

(** Registering the same rectangles a second time changes nothing: the
    listener keeps its state, ids and counter included, and is not called;
    only the download scheduler is asked again. *)
Theorem registerRects_twice (can : canvas) (listeners : gmap nat canvasListenerState)
    (l : canvasListener) (st : canvasListenerState) (rects : list Rectangle) :
  listeners !! l = Some st ->
  UseVirtualChunks st = true ->
  let listeners1 := (broadcast can listeners (canvasEventListenerRects l rects)).1.1 in
  broadcast can listeners1 (canvasEventListenerRects l rects) = (listeners1, [], rects).
Proof.
  intros Hl Hu. cbn zeta.
  pose proof (broadcast_rects_virtual can listeners l st rects Hl Hu) as H1.
  set (listeners1 := (broadcast can listeners (canvasEventListenerRects l rects)).1.1) in *.
  set (st1 := (updateVirtualChunks (ChunkSize can) (Origin can) st rects).1.1) in *.
  assert (UseVirtualChunks st1 = true) as Hu1.
  { destruct (updateVirtualChunks_shape (ChunkSize can) (Origin can) st rects)
      as (_ & H & _). cbn zeta in H. subst st1. congruence. }
  cbn [broadcast]. rewrite H1, Hu1. cbn [negb].
  subst st1. rewrite updateVirtualChunks_again.
  rewrite !bool_decide_eq_true_2 by done. cbn [andb app].
  rewrite map_to_list_empty. cbn [flat_map].
  by rewrite insert_id.
Qed.

Lemma registerRects_twice_witness :
  let listeners := {[ 7%nat := mkListenerState [] ∅ 1 true ]} : gmap nat canvasListenerState in
  let listeners1 :=
    (broadcast demoCanvas listeners
       (canvasEventListenerRects 7%nat [image_Rect 0 0 100 100])).1.1 in
  broadcast demoCanvas listeners1 (canvasEventListenerRects 7%nat [image_Rect 0 0 100 100])
  = (listeners1, [], [image_Rect 0 0 100 100]).
Proof.
  apply (registerRects_twice demoCanvas {[ 7%nat := mkListenerState [] ∅ 1 true ]} 7%nat
           (mkListenerState [] ∅ 1 true) [image_Rect 0 0 100 100]).
  - reflexivity.
  - reflexivity.
Defined.

Lemma broadcast_other_event_witness :
  (broadcast demoCanvas {[ 7%nat := mkListenerState [] ∅ 1 true ]}
     (canvasEventListenerUnsubscribe 3%nat)).1.1 !! 7%nat
  = ({[ 7%nat := mkListenerState [] ∅ 1 true ]} : gmap nat canvasListenerState) !! 7%nat.
Proof.
  apply (broadcast_other_event demoCanvas {[ 7%nat := mkListenerState [] ∅ 1 true ]} 7%nat
           (canvasEventListenerUnsubscribe 3%nat)).
  reflexivity.
Defined.

Lemma Forall_flat_map_listeners (P : callback -> Prop)
    (f : nat * canvasListenerState -> list callback)
    (listeners : gmap nat canvasListenerState) :
  (forall l st, listeners !! l = Some st -> Forall P (f (l, st))) ->
  Forall P (flat_map f (map_to_list listeners)).
Proof.
  intros H. apply Forall_forall. intros cb Hcb.
  rewrite list_elem_of_In, in_flat_map in Hcb. destruct Hcb as ([l st] & Hin & Hcb).
  rewrite <- list_elem_of_In, elem_of_map_to_list in Hin.
  specialize (H l st Hin). rewrite Forall_forall in H. apply H.
  by rewrite list_elem_of_In.
Qed.

Lemma deliverRect_listener can rect cb l st :
  (forall ids, callbackListener (cb l ids) = l) ->
  Forall (fun c => callbackListener c = l) (deliverRect can rect cb (l, st)).
Proof.
  intros Hcb. unfold deliverRect. destruct (negb _); [by repeat constructor|].
  destruct (bool_decide _); by repeat constructor.
Qed.

Lemma Forall_images_listener (l : nat) (A : Type) (f : A -> list callback) (xs : list A) :
  (forall x, Forall (fun c => callbackListener c = l) (f x)) ->
  Forall (fun c => callbackListener c = l) (flat_map f xs).
Proof.
  intros H. induction xs as [|x xs IH]; cbn [flat_map]; [constructor|].
  apply Forall_app. split; [apply H | done].
Qed.

(** The broadcaster never calls a listener that is not subscribed: every
    call it makes while handling an event goes to a listener that has a
    state in the listener map the event leaves behind. *)
Theorem broadcast_calls_subscribed (can : canvas) (listeners : gmap nat canvasListenerState)
    (event : canvasEvent) :
  Forall (fun cb => is_Some ((broadcast can listeners event).1.1 !! callbackListener cb))
         (broadcast can listeners event).1.2.
Proof.
  assert (forall (l : nat) (P : callback -> Prop) cbs,
            Forall (fun c => callbackListener c = l) cbs ->
            (forall c, callbackListener c = l -> P c) -> Forall P cbs) as Hweak.
  { intros l P cbs H HP. eapply Forall_impl; [exact H | exact HP]. }
  destruct event as [|rect|img|pos col|rect|rect|l u|l|l rects|t]; cbn [broadcast fst snd].
  - apply Forall_forall. intros cb Hcb. rewrite list_elem_of_In, in_map_iff in Hcb.
    destruct Hcb as ([l st] & <- & Hin).
    rewrite <- list_elem_of_In, elem_of_map_to_list in Hin. cbn. by eexists.
  - apply Forall_flat_map_listeners. intros l st Hl.
    apply (Hweak l); [by apply deliverRect_listener|]. intros c ->. by eexists.
  - apply Forall_flat_map_listeners. intros l st Hl.
    apply (Hweak l); [by apply deliverRect_listener|]. intros c ->. by eexists.
  - apply Forall_flat_map_listeners. intros l st Hl.
    apply (Hweak l); [|intros c ->; by eexists].
    unfold deliverPixel. destruct (negb _); [by repeat constructor|].
    destruct (vcsSlice _); by repeat constructor.
  - apply Forall_flat_map_listeners. intros l st Hl.
    apply (Hweak l); [by apply deliverRect_listener|]. intros c ->. by eexists.
  - apply Forall_flat_map_listeners. intros l st Hl.
    apply (Hweak l); [by apply deliverRect_listener|]. intros c ->. by eexists.
  - apply (Hweak l); [|intros c ->; rewrite lookup_insert_eq; by eexists].
    apply Forall_app. split.
    + destruct (negb u); [|constructor]. apply Forall_images_listener. intros p.
      destruct (Chunks can !! p) as [ch|]; [|constructor].
      destruct (chunk_getImageCopy ch false) as [[[i v] d]|e]; by repeat constructor.
    + destruct (getTime can); by repeat constructor.
  - constructor.
  - destruct (listeners !! l) as [st|] eqn:Hl; [|constructor].
    destruct (negb (UseVirtualChunks st)); [constructor|].
    destruct (updateVirtualChunks _ _ st rects) as [[st' createChunks] removeChunks].
    cbn [fst snd].
    apply (Hweak l); [|intros c ->; rewrite lookup_insert_eq; by eexists].
    apply Forall_app. split.
    + destruct (_ && _); by repeat constructor.
    + apply Forall_images_listener. intros kv. unfold createdChunkImage.
      destruct (getChunk can _ false) as [c1 [p|e]]; [|constructor].
      destruct (Chunks can !! p) as [ch|]; [|constructor].
      destruct (chunk_getImageCopy ch false) as [[[i v] d]|e]; by repeat constructor.
  - apply Forall_forall. intros cb Hcb. rewrite list_elem_of_In, in_map_iff in Hcb.
    destruct Hcb as ([l st] & <- & Hin).
    rewrite <- list_elem_of_In, elem_of_map_to_list in Hin. cbn. by eexists.
Qed.

(** [canvasEventInvalidateAll] and [canvasEventSetTime] reach every
    subscribed listener, each exactly once, and nobody else; the listener
    map stays as it is. *)
Theorem broadcast_to_everyone (can : canvas) (listeners : gmap nat canvasListenerState)
    (t : Z) :
  let inv := broadcast can listeners canvasEventInvalidateAll in
  let tim := broadcast can listeners (canvasEventSetTime t) in
  inv.1.1 = listeners /\ tim.1.1 = listeners /\
  NoDup inv.1.2 /\ NoDup tim.1.2 /\
  (forall cb, cb ∈ inv.1.2 <->
     exists l, cb = handleInvalidateAll l /\ is_Some (listeners !! l)) /\
  (forall cb, cb ∈ tim.1.2 <->
     exists l, cb = handleSetTime l t /\ is_Some (listeners !! l)).
Proof.
  cbn zeta. cbn [broadcast fst snd].
  assert (forall (f : nat -> callback),
            (forall a b, f a = f b -> a = b) ->
            NoDup (map (fun ls : nat * canvasListenerState => f ls.1) (map_to_list listeners)) /\
            (forall cb, cb ∈ map (fun ls : nat * canvasListenerState => f ls.1)
                               (map_to_list listeners) <->
               exists l, cb = f l /\ is_Some (listeners !! l))) as H.
  { intros f Hinj. split.
    - change (map (fun ls : nat * canvasListenerState => f ls.1) (map_to_list listeners))
        with (map (fun ls : nat * canvasListenerState => f ls.1) (map_to_list listeners)).
      rewrite <- (map_map fst f). apply NoDup_ListNoDup.
      apply Finite.Injective_map_NoDup; [exact Hinj|].
      apply NoDup_ListNoDup. apply (NoDup_fst_map_to_list listeners).
    - intros cb. rewrite list_elem_of_In, in_map_iff. split.
      + intros ([l st] & <- & Hin). exists l. split; [done|].
        rewrite <- list_elem_of_In, elem_of_map_to_list in Hin. by eexists.
      + intros (l & -> & [st Hl]). exists (l, st). split; [done|].
        by rewrite <- list_elem_of_In, elem_of_map_to_list. }
  destruct (H handleInvalidateAll) as [Hn1 He1]; [by intros a b [= ->]|].
  destruct (H (fun l => handleSetTime l t)) as [Hn2 He2]; [by intros a b [= ->]|].
  split_and!; done.
Qed.

(** * Further properties of the recording codec and the replayer *)

Lemma take_le_put n v (rest : list Z) : take n (le_put n v ++ rest) = le_put n v.
Proof. apply take_app_length'. by rewrite le_put_length. Qed.

Lemma drop_le_put n v (rest : list Z) : drop n (le_put n v ++ rest) = rest.
Proof. apply drop_app_length'. by rewrite le_put_length. Qed.

Lemma swrap_mod bits v : 0 < bits -> swrap bits (v mod 2 ^ bits) = swrap bits v.
Proof.
  intros Hb. unfold swrap.
  assert (0 < 2 ^ bits) as Hpos by (apply Z.pow_pos_nonneg; lia).
  f_equal. rewrite Zplus_mod_idemp_l. done.
Qed.

Lemma read_bytes_short n s :
  (0 < n) -> Z.of_nat (length s) < n -> exists e, read_bytes n s = Err e.
Proof.
  intros Hn Hlen. unfold read_bytes. destruct (Z.eqb_spec n 0); [lia|].
  destruct s as [|b s]; [by eexists|].
  destruct (Z.ltb_spec (Z.of_nat (length (b :: s))) n); [by eexists | lia].
Qed.

Lemma read_bytes_enough n s :
  0 < n -> n <= Z.of_nat (length s) ->
  read_bytes n s = Ok (take (Z.to_nat n) s, drop (Z.to_nat n) s).
Proof.
  intros Hn Hlen. unfold read_bytes. destruct (Z.eqb_spec n 0); [lia|].
  destruct s as [|b s]; [cbn in Hlen; lia|].
  by destruct (Z.ltb_spec (Z.of_nat (length (b :: s))) n); [lia|].
Qed.

(** [parseHeader] accepts a stream exactly when it has the 24 bytes of a
    header, the first four are the magic number "PREC" and the version in
    the next two is 0 or 1.  What it returns is read off the header: the
    time from the bytes 6 to 13, the chunk width and height from the bytes
    14 to 21, and as the rest of the stream everything after byte 24. *)
Theorem parseHeader_iff (s : list Z) :
  (is_ok (parseHeader s) = true <->
   (24 <= length s)%nat /\
   le_get (take 4 s) = MagicNumber /\
   le_get (take 2 (drop 4 s)) <= 1) /\
  (forall t chunkSize rest,
     parseHeader s = Ok (t, chunkSize, rest) ->
     t = int64 (le_get (take 8 (drop 6 s))) /\
     chunkSize = mkPoint (le_get (take 4 (drop 14 s))) (le_get (take 4 (drop 18 s))) /\
     rest = drop 24 s).
Proof.
  unfold parseHeader.
  destruct (decide (length s < 24)%nat) as [Hshort|Hlong].
  - destruct (read_bytes_short 24 s) as [e ->]; [lia | lia |].
    cbn. split; [|done]. split; [done | lia].
  - rewrite read_bytes_enough by lia. change (Z.to_nat 24) with 24%nat.
    rewrite !take_drop_commute, !take_take. cbn [Nat.add Nat.min].
    destruct (Z.eqb_spec (le_get (take 4 s)) MagicNumber) as [Hm|Hm]; cbn [negb].
    + match goal with |- context [1 <? ?v] => destruct (Z.ltb_spec 1 v) as [Hv|Hv] end.
      * cbn. split; [|done]. split; [done | lia].
      * cbn. split; [split; [lia | done]|]. by intros t cs rest [= <- <- <-].
    + cbn. split; [|done]. split; [done|]. by intros (_ & ? & _).
Qed.

Lemma read_bytes_split n s bs rest :
  read_bytes n s = Ok (bs, rest) -> s = bs ++ rest /\ (0 < n -> Z.of_nat (length bs) = n).
Proof.
  unfold read_bytes. destruct (Z.eqb_spec n 0) as [->|Hn].
  - intros [= <- <-]. split; [done | lia].
  - destruct s as [|b s]; [done|].
    destruct (Z.ltb_spec (Z.of_nat (length (b :: s))) n) as [|Hlen]; [done|].
    intros [= <- <-]. split; [by rewrite take_drop|].
    intros Hpos. rewrite length_take. lia.
Qed.

Lemma readEvent_frame s t cs rest :
  readEvent s = Ok (t, cs, rest) ->
  exists frame, s = frame ++ rest /\ (9 <= length frame)%nat.
Proof.
  unfold readEvent, read_unsigned, read_signed, read_rect.
  destruct (read_bytes 1 s) as [[b1 s1]|e] eqn:H1; [|done].
  apply read_bytes_split in H1 as [-> L1]. specialize (L1 ltac:(lia)).
  destruct (read_bytes 8 s1) as [[b2 s2]|e] eqn:H2; [|done].
  apply read_bytes_split in H2 as [-> L2]. specialize (L2 ltac:(lia)).
  assert (forall payload rest',
            s2 = payload ++ rest' ->
            exists frame, b1 ++ b2 ++ s2 = frame ++ rest' /\ (9 <= length frame)%nat) as Hf.
  { intros payload rest' ->. exists (b1 ++ b2 ++ payload).
    rewrite <- !app_assoc. split; [done|]. rewrite !length_app. lia. }
  repeat match goal with |- context [if ?c then _ else _] => destruct c end.
  - destruct (read_bytes 11 s2) as [[d r]|e] eqn:H3; [|done].
    apply read_bytes_split in H3 as [H3 _]. intros [= _ _ <-]. by apply (Hf d).
  - destruct (read_bytes 16 s2) as [[d r]|e] eqn:H3; [|done].
    apply read_bytes_split in H3 as [H3 _]. intros [= _ _ <-]. by apply (Hf d).
  - intros [= _ _ <-]. by apply (Hf []).
  - destruct (read_bytes 16 s2) as [[d r]|e] eqn:H3; [|done].
    apply read_bytes_split in H3 as [H3 _]. intros [= _ _ <-]. by apply (Hf d).
  - destruct (read_bytes 16 s2) as [[d s3]|e] eqn:H3; [|done].
    apply read_bytes_split in H3 as [H3 _].
    destruct (read_bytes _ s3) as [[imageData r]|e] eqn:H4; [|done].
    apply read_bytes_split in H4 as [H4 _].
    destruct (rgbArrayToImage _ _); [|done]. intros [= _ _ <-].
    apply (Hf (d ++ imageData)). rewrite <- app_assoc. congruence.
  - intros [= _ _ <-]. by apply (Hf []).
Qed.

(** A frame read that succeeds has taken a frame of at least nine bytes
    (data type and time) off the front of the stream and returns what
    follows it unchanged; a stream of fewer than nine bytes is never read
    as a frame. *)
Theorem readEvent_consumes (s : list Z) :
  (forall t cs rest,
     readEvent s = Ok (t, cs, rest) ->
     exists frame, s = frame ++ rest /\ (9 <= length frame)%nat) /\
  ((length s < 9)%nat -> exists e, readEvent s = Err e).
Proof.
  split; [apply readEvent_frame|].
  intros Hshort. destruct (readEvent s) as [[[t cs] rest]|e] eqn:Hr; [|by eexists].
  apply readEvent_frame in Hr as (frame & -> & Hlen). rewrite length_app in Hshort. lia.
Qed.

Lemma readLoop_result curTime turns : forall s recTime calls0,
  (length s < turns)%nat ->
  match readLoop turns s recTime curTime calls0 with
  | CaughtUp calls s' recTime' =>
    curTime <= recTime' /\ s' `suffix_of` s /\ calls0 `prefix_of` calls /\
    (curTime <= recTime -> calls = calls0 /\ s' = s /\ recTime' = recTime)
  | ReadFailed calls _ => recTime < curTime /\ calls0 `prefix_of` calls
  | OutOfTurns => False
  end.
Proof.
  induction turns as [|turns IH]; intros s recTime calls0 Hlen; [lia|].
  cbn [readLoop]. destruct (Z.ltb_spec recTime curTime) as [Hlt|Hge]; cbn [negb].
  - destruct (readEvent s) as [[[t cs] rest]|e] eqn:Hread; [|done].
    apply readEvent_frame in Hread as (frame & -> & Hframe).
    rewrite length_app in Hlen.
    specialize (IH rest t (calls0 ++ cs) ltac:(lia)).
    destruct (readLoop turns rest t curTime (calls0 ++ cs)) as [calls s' rt'|calls e|].
    + destruct IH as (H1 & H2 & H3 & _). split_and!; [done | | | lia].
      * by apply suffix_app_r.
      * etransitivity; [|exact H3]. by apply prefix_app_r.
    + destruct IH as [_ H3]. split; [done|].
      etransitivity; [|exact H3]. by apply prefix_app_r.
    + done.
  - split_and!; done.
Qed.

(** The read loop comes to an end on every stream.  When it stops caught
    up, the recording time has reached the demanded time and what is left
    of the stream is a suffix of it; a demand that the recording time has
    reached already reads nothing and makes no call.  It stops on a read
    error only while the recording time is behind the demand. *)
Theorem readUntil_result (stream : list Z) (recTime curTime : Z) :
  match readUntil stream recTime curTime with
  | CaughtUp calls stream' recTime' =>
    curTime <= recTime' /\ stream' `suffix_of` stream /\
    (curTime <= recTime -> calls = [] /\ stream' = stream /\ recTime' = recTime)
  | ReadFailed _ _ => recTime < curTime
  | OutOfTurns => False
  end.
Proof.
  unfold readUntil.
  pose proof (readLoop_result curTime (S (length stream)) stream recTime [] ltac:(lia)) as H.
  destruct (readLoop _ stream recTime curTime []) as [calls s' rt'|calls e|].
  - destruct H as (H1 & H2 & _ & H4). done.
  - by destruct H.
  - done.
Qed.

(** A time demand at or after [curTime], received inside a recording,
    becomes the new [curTime].  Either the replayer stays in the recording,
    further down its stream, with the recording time at or after the
    demand; or a read failed and it has left the file, with [invalidateAll]
    as its last call, for the next file it can open.  A demand that the
    recording time has reached already changes nothing else and makes no
    call. *)
Theorem replayer_demand_forward (files rest : list recording) (r : replayer)
    (stream : list Z) (recTime t : Z) :
  pos r = InFile rest stream recTime ->
  curTime r <= t ->
  let res := replayer_demand files r t in
  curTime res.1 = t /\
  ((exists stream' recTime',
      pos res.1 = InFile rest stream' recTime' /\ t <= recTime' /\
      stream' `suffix_of` stream) \/
   (pos res.1 = openNext rest /\ exists calls, res.2 = calls ++ [CallInvalidateAll])) /\
  (t <= recTime -> res = (mkReplayer t (InFile rest stream recTime), [])).
Proof.
  intros Hpos Hle. cbn zeta. unfold replayer_demand. rewrite Hpos.
  destruct (Z.ltb_spec t (curTime r)) as [|_]; [lia|].
  pose proof (readUntil_total stream recTime t) as Htotal.
  pose proof (readLoop_result t (S (length stream)) stream recTime [] ltac:(lia)) as H.
  unfold readUntil in *.
  destruct (readLoop _ stream recTime t []) as [calls s' rt'|calls e|]; [| |done].
  - destruct H as (H1 & H2 & _ & H4). cbn [fst snd curTime pos]. split_and!.
    + done.
    + left. by exists s', rt'.
    + intros Hreached. by destruct (H4 Hreached) as (-> & -> & ->).
  - destruct H as [Hlt _]. cbn [fst snd curTime pos]. split_and!.
    + done.
    + right. split; [done|]. by exists calls.
    + lia.
Qed.

Lemma replayer_demand_forward_witness :
  let r := replayer_start seekFiles 100 in
  let stream := readerSetPixel 110 1 1 10 20 30 ++ readerSetPixel 120 2 2 10 20 30 in
  let res := replayer_demand seekFiles r 115 in
  curTime res.1 = 115 /\
  ((exists stream' recTime',
      pos res.1 = InFile [seekFile2] stream' recTime' /\ 115 <= recTime' /\
      stream' `suffix_of` stream) \/
   (pos res.1 = openNext [seekFile2] /\ exists calls, res.2 = calls ++ [CallInvalidateAll])) /\
  (115 <= 100 -> res = (mkReplayer 115 (InFile [seekFile2] stream 100), [])).
Proof.
  apply (replayer_demand_forward seekFiles [seekFile2] (replayer_start seekFiles 100)
           (readerSetPixel 110 1 1 10 20 30 ++ readerSetPixel 120 2 2 10 20 30) 100 115).
  - vm_compute. reflexivity.
  - vm_compute. discriminate.
Defined.

(** The file loop opens the first directory entry it can use, a [.pixrec]
    file that can be read and whose header is accepted, and starts at the
    time and behind the header of that file; the entries before it are
    passed over.  It reaches the end only when no entry can be used. *)
Theorem openNext_first_usable (files : list recording) :
  match openNext files with
  | InFile rest stream recTime =>
    exists skipped f content chunkSize,
      files = skipped ++ f :: rest /\
      Forall (fun g => ~ usable g) skipped /\
      filepath_Ext (Name f) = ".pixrec"%string /\
      Content f = Some content /\
      parseHeader content = Ok (recTime, chunkSize, stream)
  | AtEnd => Forall (fun g => ~ usable g) files
  | Stopped => False
  end.
Proof.
  induction files as [|f files IH]; [by constructor|].
  cbn [openNext].
  assert (~ usable f ->
          match openNext files with
          | InFile rest stream recTime =>
            exists skipped f0 content chunkSize,
              f :: files = skipped ++ f0 :: rest /\
              Forall (fun g => ~ usable g) skipped /\
              filepath_Ext (Name f0) = ".pixrec"%string /\
              Content f0 = Some content /\
              parseHeader content = Ok (recTime, chunkSize, stream)
          | AtEnd => Forall (fun g => ~ usable g) (f :: files)
          | Stopped => False
          end) as Hskip.
  { intros Hf. destruct (openNext files) as [rest stream recTime| |]; [| |done].
    - destruct IH as (skipped & f0 & content & cs & -> & Hs & He & Hc & Hp).
      exists (f :: skipped), f0, content, cs. split_and!; try done. by constructor.
    - by constructor. }
  destruct (String.eqb_spec (filepath_Ext (Name f)) ".pixrec") as [Hext|Hext]; cbn [negb].
  - destruct (Content f) as [content|] eqn:Hcontent.
    + destruct (parseHeader content) as [[[recTime cs] stream]|e] eqn:Hparse.
      * exists [], f, content, cs. split_and!; try done.
      * apply Hskip. intros (_ & c & Hc & Hok). rewrite Hcontent in Hc.
        injection Hc as <-. by rewrite Hparse in Hok.
    + apply Hskip. intros (_ & c & Hc & _). congruence.
  - apply Hskip. by intros [? _].
Qed.

(** [handleSetPixel] against the palette.  An index above the palette's
    length is refused with the index error and nothing is written.  An
    index equal to the length passes the guard and the palette access runs
    out of range.  An index below the length writes a frame of twelve bytes
    that starts with the data type 10. *)
Theorem cdw_handleSetPixel_cases (cdw : canvasDiskWriter) (pos : Point) (colorIndex : Z) :
  0 <= colorIndex ->
  let n := Z.of_nat (length (Canvas_Palette cdw)) in
  (n < colorIndex -> cdw_handleSetPixel cdw pos colorIndex = (cdw, Some ErrPaletteIndex)) /\
  (colorIndex = n ->
   cdw_handleSetPixel cdw pos colorIndex = (cdw, Some PanicIndexOutOfRange)) /\
  (colorIndex < n ->
   exists frame,
     cdw_handleSetPixel cdw pos colorIndex = (cdw_write cdw frame, None) /\
     length frame = 12%nat /\ frame !! 0%nat = Some 10).
Proof.
  intros Hnn. cbn zeta. unfold cdw_handleSetPixel. split_and!.
  - intros Hgt. by destruct (Z.ltb_spec (Z.of_nat (length (Canvas_Palette cdw))) colorIndex);
      [|lia].
  - intros ->. rewrite Z.ltb_irrefl, Nat2Z.id.
    by rewrite (lookup_ge_None_2 (Canvas_Palette cdw) (length (Canvas_Palette cdw))).
  - intros Hlt.
    destruct (Z.ltb_spec (Z.of_nat (length (Canvas_Palette cdw))) colorIndex); [lia|].
    destruct (lookup_lt_is_Some_2 (Canvas_Palette cdw) (Z.to_nat colorIndex)) as [c ->];
      [lia|].
    unfold RGBA_channels. eexists. split; [reflexivity|]. done.
Qed.

Lemma cdw_handleSetPixel_cases_witness :
  let cdw := mkWriter (mkPoint 256 256) scenarioPalette [] in
  let n := Z.of_nat (length (Canvas_Palette cdw)) in
  (n < 1 -> cdw_handleSetPixel cdw (mkPoint 7 8) 1 = (cdw, Some ErrPaletteIndex)) /\
  (1 = n -> cdw_handleSetPixel cdw (mkPoint 7 8) 1 = (cdw, Some PanicIndexOutOfRange)) /\
  (1 < n ->
   exists frame,
     cdw_handleSetPixel cdw (mkPoint 7 8) 1 = (cdw_write cdw frame, None) /\
     length frame = 12%nat /\ frame !! 0%nat = Some 10).
Proof.
  apply (cdw_handleSetPixel_cases (mkWriter (mkPoint 256 256) scenarioPalette [])
           (mkPoint 7 8) 1).
  lia.
Defined.

Lemma cdw_handle_appends cdw e :
  exists bytes,
    (cdw_handle cdw e).1 = cdw_write cdw bytes /\
    ((cdw_handle cdw e).2 = None -> length bytes = frameSize e).
Proof.
  destruct e as [pos i|rect| |img]; cbn [cdw_handle frameSize].
  - unfold cdw_handleSetPixel. destruct (_ <? _).
    + exists []. split; [|done]. destruct cdw. unfold cdw_write. cbn. by rewrite app_nil_r.
    + destruct (Canvas_Palette cdw !! Z.to_nat i) as [c|].
      * unfold RGBA_channels. eexists. split; [reflexivity | done].
      * exists []. split; [|done]. destruct cdw. unfold cdw_write. cbn. by rewrite app_nil_r.
  - unfold cdw_handleInvalidateRect. eexists. split; [reflexivity | done].
  - unfold cdw_handleInvalidateAll. eexists. split; [reflexivity | done].
  - unfold cdw_handleSetImage. eexists. split; [reflexivity|]. intros _.
    cbn zeta. rewrite !length_app. unfold put_u8, put_i32, put_u16, put_u32.
    rewrite !le_put_length. lia.
Qed.

(** The writer only ever appends: after any sequence of handler calls the
    stream is the stream before followed by what was written, and the
    canvas the writer points to is the same.  When no handler failed, what
    was written has the frame sizes of the events added up: 12 bytes for a
    pixel, 17 for a rectangle, 1 for invalidate-all, 17 and the pixel array
    for an image. *)
Theorem cdw_record_appends (cdw : canvasDiskWriter) (es : list writerEvent) :
  exists bytes,
    (cdw_record cdw es).1 = cdw_write cdw bytes /\
    ((cdw_record cdw es).2 = None -> length bytes = sum_list (frameSize <$> es)).
Proof.
  revert cdw. induction es as [|e es IH]; intros cdw.
  - exists []. cbn. split; [|done]. destruct cdw. unfold cdw_write. cbn. by rewrite app_nil_r.
  - cbn [cdw_record]. destruct (cdw_handle_appends cdw e) as (b1 & H1 & L1).
    destruct (cdw_handle cdw e) as [cdw1 [err|]]; cbn [fst snd] in *.
    + exists b1. by split.
    + destruct (IH cdw1) as (b2 & H2 & L2). exists (b1 ++ b2). split.
      * rewrite H2, H1. unfold cdw_write. cbn. by rewrite app_assoc.
      * intros Hok. rewrite length_app, L1, L2 by done. done.
Qed.

Lemma length_palette_bytes palette :
  length (flat_map writerPaletteEntry palette) = (3 * length palette)%nat.
Proof.
  induction palette as [|c palette IH]; [done|].
  cbn [flat_map length]. rewrite length_app, IH. unfold writerPaletteEntry, RGBA_channels.
  cbn [length app put_u8 le_put]. lia.
Qed.

Lemma le_get_put_u32 v : le_get (le_put 4 (uint32 v)) = uint32 v.
Proof.
  rewrite le_get_put. change (256 ^ Z.of_nat 4) with (2 ^ 32).
  unfold uint32, uwrap. by rewrite Z.mod_mod.
Qed.

Lemma le_get_put_u16 v : le_get (le_put 2 (uint16 v)) = uint16 v.
Proof.
  rewrite le_get_put. change (256 ^ Z.of_nat 2) with (2 ^ 16).
  unfold uint16, uwrap. by rewrite Z.mod_mod.
Qed.

(** The stream of a new writer: the 16 bytes of the header and three bytes
    per palette colour.  Read little endian, the first four bytes are the
    magic number "PREC" and the next two the version 1, so the reader's two
    checks pass on them; the chunk width and height are at the offsets 6
    and 10 and the palette size at offset 14, each cut to its width. *)
Theorem writer_header_fields (chunkSize : pixelSize) (palette : list RGBA) :
  let h := ZipWriter (newCanvasDiskWriter chunkSize palette) in
  length h = (16 + 3 * length palette)%nat /\
  le_get (take 4 h) = MagicNumber /\
  le_get (take 2 (drop 4 h)) = 1 /\
  le_get (take 4 (drop 6 h)) = uint32 (X chunkSize) /\
  le_get (take 4 (drop 10 h)) = uint32 (Y chunkSize) /\
  le_get (take 2 (drop 14 h)) = uint16 (Z.of_nat (length palette)).
Proof.
  cbn zeta. unfold newCanvasDiskWriter, writerHeader, put_u32, put_u16. cbn [ZipWriter].
  rewrite <- !app_assoc. split_and!.
  - rewrite !length_app, !le_put_length, length_palette_bytes. lia.
  - by rewrite take_le_put.
  - by rewrite drop_le_put, take_le_put.
  - change 6%nat with (4 + 2)%nat. rewrite <- drop_drop, !drop_le_put, take_le_put.
    apply le_get_put_u32.
  - change 10%nat with (4 + (2 + 4))%nat. rewrite <- !drop_drop, !drop_le_put, take_le_put.
    apply le_get_put_u32.
  - change 14%nat with (4 + (2 + (4 + 4)))%nat.
    rewrite <- !drop_drop, !drop_le_put, take_le_put.
    apply le_get_put_u16.
Qed.

Lemma written_write cdw bytes err : written cdw (cdw_write cdw bytes, err) = bytes.
Proof. unfold written, cdw_write. cbn [fst ZipWriter]. apply drop_app_length. Qed.

Lemma swrap_idem bits v : 0 < bits -> swrap bits (swrap bits v) = swrap bits v.
Proof.
  intros Hb. unfold swrap at 1 3. f_equal.
  unfold swrap. rewrite Z.sub_add. apply Z.mod_mod.
  apply Z.neq_sym, Z.lt_neq, Z.pow_pos_nonneg; lia.
Qed.

Lemma int32_le_put v : int32 (le_get (le_put 4 (int32 v))) = int32 v.
Proof.
  rewrite le_get_put. change (256 ^ Z.of_nat 4) with (2 ^ 32).
  unfold int32. rewrite swrap_mod by lia. apply swrap_idem. lia.
Qed.

Lemma read_head dt t body :
  read_unsigned 1 (le_put 1 dt ++ le_put 8 t ++ body)
  = Ok (dt mod 256, le_put 8 t ++ body) /\
  read_signed 8 (le_put 8 t ++ body) = Ok (int64 t, body).
Proof.
  unfold read_unsigned, read_signed.
  rewrite (read_bytes_app 1 (le_put 1 dt)) by (rewrite ?le_put_length; lia).
  rewrite (read_bytes_app 8 (le_put 8 t)) by (rewrite ?le_put_length; lia).
  split.
  - cbn [le_put le_get]. do 2 f_equal. lia.
  - rewrite le_get_put. change (256 ^ Z.of_nat 8) with (2 ^ 64). change (8 * 8) with 64.
    by rewrite swrap_mod.
Qed.

Lemma read_rect_put a b c d rest :
  read_rect (put_i32 (int32 a) ++ put_i32 (int32 b) ++ put_i32 (int32 c)
               ++ put_i32 (int32 d) ++ rest)
  = Ok (image_Rect (int32 a) (int32 b) (int32 c) (int32 d), rest).
Proof.
  unfold read_rect, put_i32.
  replace (le_put 4 (int32 a) ++ le_put 4 (int32 b) ++ le_put 4 (int32 c)
             ++ le_put 4 (int32 d) ++ rest)
    with ((le_put 4 (int32 a) ++ le_put 4 (int32 b) ++ le_put 4 (int32 c)
             ++ le_put 4 (int32 d) ++ []) ++ rest)
    by (by rewrite <- !app_assoc).
  rewrite read_bytes_app by (rewrite ?length_app, ?le_put_length; cbn; lia).
  change 12%nat with (4 + (4 + 4))%nat. change 8%nat with (4 + 4)%nat.
  rewrite <- !drop_drop, !drop_le_put, !take_le_put, !int32_le_put. done.
Qed.

(** The writer's frames for [handleInvalidateRect] and
    [handleInvalidateAll] differ from what the reader expects by the time
    only: with the eight bytes of a time put after the data type, the
    reader takes exactly the frame off the stream and makes the call for
    the event, with the time decoded and the rectangle's coordinates cut
    to 32 bits and put in canonical order. *)
Theorem writer_frames_read_with_time (cdw : canvasDiskWriter) (rect : Rectangle)
    (t : Z) (rest : list Z) :
  readEvent (withTime t (written cdw (cdw_handleInvalidateRect cdw rect)) ++ rest)
  = Ok (int64 t,
        [CallInvalidateRect
           (image_Rect (int32 (X (Min rect))) (int32 (Y (Min rect)))
                       (int32 (X (Max rect))) (int32 (Y (Max rect))))],
        rest) /\
  readEvent (withTime t (written cdw (cdw_handleInvalidateAll cdw)) ++ rest)
  = Ok (int64 t, [CallInvalidateAll], rest).
Proof.
  unfold cdw_handleInvalidateRect, cdw_handleInvalidateAll.
  rewrite !written_write. unfold withTime, put_u8, put_i64.
  split.
  - rewrite take_le_put, drop_le_put. rewrite <- !app_assoc.
    unfold readEvent.
    destruct (read_head 20 t
                (put_i32 (int32 (X (Min rect))) ++ put_i32 (int32 (Y (Min rect))) ++
                 put_i32 (int32 (X (Max rect))) ++ put_i32 (int32 (Y (Max rect))) ++ rest))
      as [-> ->].
    change (20 mod 256 =? 10) with false. change (20 mod 256 =? 20) with true.
    cbn match. by rewrite read_rect_put.
  - replace (le_put 1 21) with (le_put 1 21 ++ []) at 1 2 by apply app_nil_r.
    rewrite take_le_put, drop_le_put. rewrite <- !app_assoc. cbn [app].
    unfold readEvent.
    destruct (read_head 21 t rest) as [-> ->]. done.
Qed.

Lemma uint8_channel v : 0 <= v < 256 -> le_get (le_put 1 (uint8 (v * 257))) = v.
Proof.
  intros Hv. cbn [le_put le_get]. unfold uint8, uwrap. change (2 ^ 8) with 256.
  rewrite Z.mod_mod by lia. replace (v * 257) with (v + v * 256) by lia.
  rewrite Z.mod_add by lia. rewrite Z.mod_small; lia.
Qed.

(** The same for [handleSetPixel]: with a time put after the data type,
    the reader decodes the writer's pixel frame to [setPixel] at the
    position cut to 32 bits, with the palette colour's red, green and blue
    and full opacity. *)
Theorem writer_pixel_read_with_time (cdw : canvasDiskWriter) (pos : Point)
    (colorIndex : Z) (c : RGBA) (t : Z) (rest : list Z) :
  0 <= colorIndex ->
  Canvas_Palette cdw !! Z.to_nat colorIndex = Some c ->
  0 <= R c < 256 -> 0 <= G c < 256 -> 0 <= B c < 256 ->
  readEvent (withTime t (written cdw (cdw_handleSetPixel cdw pos colorIndex)) ++ rest)
  = Ok (int64 t,
        [CallSetPixel (mkPoint (int32 (X pos)) (int32 (Y pos)))
                      (mkRGBA (R c) (G c) (B c) 255)],
        rest).
Proof.
  intros Hnn Hc HR HG HB. unfold cdw_handleSetPixel.
  pose proof (lookup_lt_Some _ _ _ Hc) as Hlt.
  destruct (Z.ltb_spec (Z.of_nat (length (Canvas_Palette cdw))) colorIndex); [lia|].
  rewrite Hc. unfold RGBA_channels. rewrite written_write.
  unfold withTime, put_u8, put_i64, put_i32.
  rewrite take_le_put, drop_le_put. rewrite <- !app_assoc.
  unfold readEvent.
  destruct (read_head 10 t
              (le_put 4 (int32 (X pos)) ++ le_put 4 (int32 (Y pos)) ++
               le_put 1 (uint8 (R c * 257)) ++ le_put 1 (uint8 (G c * 257)) ++
               le_put 1 (uint8 (B c * 257)) ++ rest))
    as [-> ->].
  change (10 mod 256 =? 10) with true. cbn match.
  replace (le_put 4 (int32 (X pos)) ++ le_put 4 (int32 (Y pos)) ++
           le_put 1 (uint8 (R c * 257)) ++ le_put 1 (uint8 (G c * 257)) ++
           le_put 1 (uint8 (B c * 257)) ++ rest)
    with ((le_put 4 (int32 (X pos)) ++ le_put 4 (int32 (Y pos)) ++
           le_put 1 (uint8 (R c * 257)) ++ le_put 1 (uint8 (G c * 257)) ++
           le_put 1 (uint8 (B c * 257)) ++ []) ++ rest)
    by (by rewrite <- !app_assoc).
  rewrite read_bytes_app by (rewrite ?length_app, ?le_put_length; cbn; lia).
  change 10%nat with (4 + (4 + (1 + 1)))%nat. change 9%nat with (4 + (4 + 1))%nat.
  change 8%nat with (4 + 4)%nat.
  rewrite <- !drop_drop, !drop_le_put, !take_le_put, !int32_le_put.
  by rewrite !uint8_channel.
Qed.

Lemma writer_pixel_read_with_time_witness :
  readEvent (withTime 1000
               (written (mkWriter (mkPoint 256 256) scenarioPalette [])
                  (cdw_handleSetPixel (mkWriter (mkPoint 256 256) scenarioPalette [])
                     (mkPoint 7 8) 0)) ++ [21])
  = Ok (int64 1000,
        [CallSetPixel (mkPoint (int32 7) (int32 8))
                      (mkRGBA (R (mkRGBA 10 20 30 255)) (G (mkRGBA 10 20 30 255))
                              (B (mkRGBA 10 20 30 255)) 255)],
        [21]).
Proof.
  apply (writer_pixel_read_with_time (mkWriter (mkPoint 256 256) scenarioPalette [])
           (mkPoint 7 8) 0 (mkRGBA 10 20 30 255) 1000 [21]).
  - lia.
  - reflexivity.
  - cbn; lia.
  - cbn; lia.
  - cbn; lia.
Defined.
